(** * d2l-en notebooks: tensors, pooling and parameter initialisation

    A shallow embedding of the code cells of three notebooks:

    - [jax/chapter_preliminaries/ndarray.ipynb]: reshape, indexed
      functional update, broadcasting;
    - [jax/chapter_convolutional-neural-networks/pooling.ipynb]: the
      reference loop [pool2d];
    - [mxnet/chapter_builders-guide/init-param.ipynb]: built-in and
      custom initialisers.

    The notebooks call into array libraries (jax.numpy, mxnet).  The
    functions they call are modelled after what the notebooks say and
    show about them, in their text and their recorded outputs, and after
    the libraries' documented behaviour.  Arrays are a shape together
    with a row-major buffer (a C-contiguous array); the number type is
    [Q], so arithmetic is exact, and the rounding, the infinities and
    the NaN of the libraries' 32-bit floats are outside the model. *)

From Stdlib Require Import ZArith QArith Qminmax Qabs Lia Lqa.
From stdpp Require Import list strings.

Local Open Scope nat_scope.

(** * Part I: the model *)

(** ** Exceptions and the result monad *)

(** The exceptions that the modelled library calls and the Python run
    time raise.  None of the notebooks' own cells contains a [raise] or
    a [try]. *)
Inductive exn : Type :=
  | NegativeDimension      (* jnp.zeros: a negative extent *)
  | ZeroSizeReduction      (* max of an array without elements *)
  | CannotReshape          (* reshape: element counts do not match *)
  | IncompatibleShapes     (* broadcasting: extents differ, none is 1 *)
  | TupleIndexOutOfRange   (* X.shape[k] with k >= X.ndim *)
  | TooManyIndices.        (* X[r, c] on an array of fewer than 2 axes *)

Inductive result (A : Type) : Type :=
  | Ok (a : A)
  | Raise (e : exn).
Arguments Ok {A} a.
Arguments Raise {A} e.

#[global] Instance result_bind : MBind result := λ A B k m,
  match m with
  | Ok a => k a
  | Raise e => Raise e
  end.

(** [for x in l: s = body(s, x)], stopping at the first exception. *)
Fixpoint for_each {S I} (body : S → I → result S) (l : list I) (s : S)
  : result S :=
  match l with
  | [] => Ok s
  | i :: l' => s' ← body s i; for_each body l' s'
  end.

(** Python's [range(n)]. *)
Definition range (n : nat) : list nat := seq 0 n.

(** ** Arrays *)

Record ndarray (A : Type) : Type := NDArray {
  shape : list nat;
  data : list A
}.
Arguments NDArray {A} shape data.
Arguments shape {A} n.
Arguments data {A} n.

(** Product of the extents: the number of elements a shape holds. *)
Definition prod (s : list nat) : nat := foldr Nat.mul 1 s.

(** [x.size] *)
Definition size {A} (X : ndarray A) : nat := prod (shape X).

(** The buffer has exactly as many elements as the shape holds. *)
Definition wf {A} (X : ndarray A) : Prop := length (data X) = size X.

(** Row-major offset of a multi-index, by Horner's rule; [None] when the
    number of indices differs from the number of axes or an index is out
    of bounds. *)
Fixpoint ravel_from (acc : nat) (shp idx : list nat) : option nat :=
  match shp, idx with
  | [], [] => Some acc
  | d :: shp', i :: idx' =>
      if decide (i < d) then ravel_from (acc * d + i) shp' idx' else None
  | _, _ => None
  end.

Definition ravel_index (shp idx : list nat) : option nat :=
  ravel_from 0 shp idx.

(** [X[i0, ..., ik]] for a full, in-bounds, non-negative multi-index. *)
Definition getitem {A} (X : ndarray A) (idx : list nat) : option A :=
  k ← ravel_index (shape X) idx; data X !! k.

(** [X.at[i0, ..., ik].set(v)] for a non-negative multi-index, such as
    the loops of [pool2d] produce: a new array; an update whose index is
    out of bounds is dropped, as the library does. *)
Definition at_set {A} (X : ndarray A) (idx : list nat) (v : A) : ndarray A :=
  match ravel_index (shape X) idx with
  | Some k => NDArray (shape X) (<[k := v]> (data X))
  | None => X
  end.

(** A Python slice [start:stop] (step 1); [None] is an omitted bound. *)
Definition slice : Type := option Z * option Z.

(** One bound of a slice against an axis of extent [len]: a negative
    bound counts from the end, then the bound is clamped to [0, len]. *)
Definition adjust_bound (len : nat) (b : Z) : nat :=
  let l := Z.of_nat len in
  let b' := if (b <? 0)%Z then (b + l)%Z else b in
  Z.to_nat (Z.min l (Z.max 0 b')).

(** [slice.indices(len)]: the half-open range [lo, hi) the slice selects;
    it is empty when [hi <= lo]. *)
Definition slice_indices (s : slice) (len : nat) : nat * nat :=
  (from_option (adjust_bound len) 0 s.1,
   from_option (adjust_bound len) len s.2).

(** [X[r, c]] with two slices, on an array of at least two axes. *)
Definition slice2 {A} (X : ndarray A) (r c : slice) : result (ndarray A) :=
  match shape X with
  | d0 :: d1 :: rest =>
      let '(lr, hr) := slice_indices r d0 in
      let '(lc, hc) := slice_indices c d1 in
      let blk := prod rest in
      Ok (NDArray ((hr - lr) :: (hc - lc) :: rest)
            (seq lr (hr - lr) ≫= λ a,
               take ((hc - lc) * blk) (drop ((a * d1 + lc) * blk) (data X))))
  | _ => Raise TooManyIndices
  end.

(** [X.at[r, c].set(v)] with two slices and a scalar [v]: a new array in
    which, in every selected row, the selected stretch of the buffer is
    overwritten. *)
Definition at_set_slice2 {A} (X : ndarray A) (r c : slice) (v : A)
  : result (ndarray A) :=
  match shape X with
  | d0 :: d1 :: rest =>
      let '(lr, hr) := slice_indices r d0 in
      let '(lc, hc) := slice_indices c d1 in
      let blk := prod rest in
      Ok (NDArray (shape X)
            (foldl (λ buf a,
               list_inserts ((a * d1 + lc) * blk)
                 (replicate ((hc - lc) * blk) v) buf)
               (data X) (seq lr (hr - lr))))
  | _ => Raise TooManyIndices
  end.

(** [X.shape[k]] *)
Definition shape_at {A} (X : ndarray A) (k : nat) : result nat :=
  match shape X !! k with
  | Some d => Ok d
  | None => Raise TupleIndexOutOfRange
  end.

(** [x.reshape(newshape)].  At most one component may be -1; it stands
    for the size of [x] divided by the product of the other components,
    which must divide it.  Without a -1 the product of the components
    must be the size of [x].  The buffer is kept: the elements stay in
    row-major order. *)
Definition reshape {A} (x : ndarray A) (newshape : list Z)
  : result (ndarray A) :=
  let n := size x in
  let others := filter (λ d, d ≠ (-1)%Z) newshape in
  let p := Z.to_nat (foldr Z.mul 1%Z others) in
  if decide (Exists (λ d, (d < 0)%Z) others) then Raise CannotReshape
  else if decide (length others = length newshape) then
    if decide (p = n)
    then Ok (NDArray (Z.to_nat <$> newshape) (data x))
    else Raise CannotReshape
  else if decide (S (length others) = length newshape) then
    if decide (p ≠ 0 ∧ n `mod` p = 0)
    then Ok (NDArray
           ((λ d, if decide (d = (-1)%Z) then n `div` p else Z.to_nat d)
              <$> newshape) (data x))
    else Raise CannotReshape
  else Raise CannotReshape.

(** ** Broadcasting *)

(** The common extent of two extents, if there is one. *)
Definition broadcast_dim (d e : nat) : result nat :=
  if decide (d = e) then Ok d
  else if decide (d = 1) then Ok e
  else if decide (e = 1) then Ok d
  else Raise IncompatibleShapes.

(** A shape padded to [k] axes with leading extents 1. *)
Definition pad_shape (k : nat) (s : list nat) : list nat :=
  replicate (k - length s) 1 ++ s.

Fixpoint broadcast_aligned (s t : list nat) : result (list nat) :=
  match s, t with
  | [], [] => Ok []
  | d :: s', e :: t' =>
      r ← broadcast_dim d e;
      rs ← broadcast_aligned s' t';
      Ok (r :: rs)
  | _, _ => Raise IncompatibleShapes
  end.

(** The shape of the result of an elementwise operation on two arrays. *)
Definition broadcast_shapes (s t : list nat) : result (list nat) :=
  let k := length s `max` length t in
  broadcast_aligned (pad_shape k s) (pad_shape k t).

(** The [k]-th block of [blk] elements of a buffer. *)
Definition block {A} (blk k : nat) (buf : list A) : list A :=
  take blk (drop (k * blk) buf).

(** The position read along an axis of extent [d] when the result is at
    position [k]: an axis of extent 1 is not advanced (stride 0). *)
Definition pin (d k : nat) : nat := if decide (d = 1) then 0 else k.

(** The buffer of [f(a, b)] for operands of aligned shapes [sa] and [sb]
    and result shape [s]: the result is traversed in row-major order and
    both operands are read in place. *)
Fixpoint bzip {A B C} (f : A → B → C) (sa sb s : list nat)
    (da : list A) (db : list B) : list C :=
  match sa, sb, s with
  | d :: sa', e :: sb', r :: s' =>
      seq 0 r ≫= λ k,
        bzip f sa' sb' s' (block (prod sa') (pin d k) da)
                          (block (prod sb') (pin e k) db)
  | _, _, _ => zip_with f da db
  end.

(** An elementwise binary operation of the library, such as [a + b]. *)
Definition binop {A B C} (f : A → B → C) (a : ndarray A) (b : ndarray B)
  : result (ndarray C) :=
  let k := length (shape a) `max` length (shape b) in
  s ← broadcast_shapes (shape a) (shape b);
  Ok (NDArray s
        (bzip f (pad_shape k (shape a)) (pad_shape k (shape b)) s
           (data a) (data b))).

(** The two-step procedure of the notebook's text, kept apart from
    [binop] to compare the two.  Step (i): the buffer of an array of
    shape [src] expanded to shape [tgt] by copying along the axes of
    extent 1. *)
Fixpoint expand {A} (src tgt : list nat) (buf : list A) : list A :=
  match src, tgt with
  | d :: src', e :: tgt' =>
      if decide (d = e)
      then seq 0 d ≫= λ k, expand src' tgt' (block (prod src') k buf)
      else mjoin (replicate e (expand src' tgt' buf))
  | _, _ => buf
  end.

Definition broadcast_to {A} (a : ndarray A) (s : list nat) : ndarray A :=
  NDArray s (expand (pad_shape (length s) (shape a)) s (data a)).

(** Step (ii): the operation on two arrays of the same shape. *)
Definition elementwise {A B C} (f : A → B → C) (a : ndarray A)
    (b : ndarray B) : ndarray C :=
  NDArray (shape a) (zip_with f (data a) (data b)).

(** [src] can be expanded to [tgt]: axis by axis the extents agree or
    the source extent is 1. *)
Definition expandable (src tgt : list nat) : Prop :=
  Forall2 (λ d e, d = e ∨ d = 1) src tgt.

(** ** The [jax.numpy] functions of the notebooks *)

Module jnp.

(** [jnp.zeros(dims)] *)
Definition zeros (dims : list Z) : result (ndarray Q) :=
  if forallb (Z.leb 0) dims then
    let s := Z.to_nat <$> dims in
    Ok (NDArray s (replicate (prod s) 0%Q))
  else Raise NegativeDimension.

(** [jnp.arange(n)] *)
Definition arange (n : nat) : ndarray Z :=
  NDArray [n] (Z.of_nat <$> seq 0 n).

(** [X.max()] over all elements. *)
Definition max (X : ndarray Q) : result Q :=
  match data X with
  | [] => Raise ZeroSizeReduction
  | x :: xs => Ok (foldl Qmax x xs)
  end.

Definition sum (l : list Q) : Q := foldr Qplus 0%Q l.

(** [X.mean()] over all elements: the sum divided by the count.  Over
    no elements the library yields NaN, which [Q] lacks; here the
    quotient is [Qdiv]'s 0/0. *)
Definition mean (X : ndarray Q) : Q :=
  (sum (data X) / inject_Z (Z.of_nat (length (data X))))%Q.

End jnp.

(** ** pooling.ipynb: [pool2d] *)

(** [X[i: i + p_h, j: j + p_w]]: the window that [pool2d] reads at
    output position (i, j). *)
Definition window_at (X : ndarray Q) (p_h p_w : Z) (i j : nat)
  : result (ndarray Q) :=
  slice2 X (Some (Z.of_nat i), Some (Z.of_nat i + p_h)%Z)
           (Some (Z.of_nat j), Some (Z.of_nat j + p_w)%Z).

(** The body of the inner loop of [pool2d], at output position (i, j). *)
Definition pool2d_body (X : ndarray Q) (p_h p_w : Z) (mode : string)
    (i : nat) (Y : ndarray Q) (j : nat) : result (ndarray Q) :=
  if String.eqb mode "max" then
    W ← window_at X p_h p_w i j; v ← jnp.max W; Ok (at_set Y [i; j] v)
  else if String.eqb mode "avg" then
    W ← window_at X p_h p_w i j; Ok (at_set Y [i; j] (jnp.mean W))
  else Ok Y.

Definition pool2d (X : ndarray Q) (pool_size : Z * Z) (mode : string)
  : result (ndarray Q) :=
  let '(p_h, p_w) := pool_size in
  m ← shape_at X 0;
  n ← shape_at X 1;
  Y ← jnp.zeros [(Z.of_nat m - p_h + 1)%Z; (Z.of_nat n - p_w + 1)%Z];
  h ← shape_at Y 0;
  for_each (λ Y i,
    w ← shape_at Y 1;
    for_each (pool2d_body X p_h p_w mode i) (range w) Y) (range h) Y.

(** The input of the notebook's examples. *)
Definition X33 : ndarray Q :=
  NDArray [3; 3] (inject_Z <$> [0; 1; 2; 3; 4; 5; 6; 7; 8]%Z).

(** *** Windows, as the text describes them *)

(** Position (a, b) lies in rows i..i+p_h-1 and columns j..j+p_w-1. *)
Definition in_window (i j p_h p_w a b : nat) : Prop :=
  i ≤ a < i + p_h ∧ j ≤ b < j + p_w.

(** [y] is the maximum of the window: it is attained in the window and
    bounds every element of it. *)
Definition window_max (X : ndarray Q) (i j p_h p_w : nat) (y : Q) : Prop :=
  (∃ a b, in_window i j p_h p_w a b ∧ getitem X [a; b] = Some y) ∧
  (∀ a b, in_window i j p_h p_w a b →
     ∃ x, getitem X [a; b] = Some x ∧ (x <= y)%Q).

(** [X[a, b]] as a number; 0 where the position does not exist. *)
Definition get2 (X : ndarray Q) (a b : nat) : Q :=
  default 0%Q (getitem X [a; b]).

(** The sum of X[i..i+p_h-1, j..j+p_w-1], row by row. *)
Definition window_sum (X : ndarray Q) (i j p_h p_w : nat) : Q :=
  jnp.sum ((λ a, jnp.sum (get2 X a <$> seq j p_w)) <$> seq i p_h).

(** *** What the loops of [pool2d] compute *)

(** The buffer of the window of [p_h] rows and [p_w] columns whose
    top-left corner is (i, j), in a matrix of [n] columns. *)
Definition window_data {A} (X : ndarray A) (n i j p_h p_w : nat) : list A :=
  seq i p_h ≫= λ a, take p_w (drop (a * n + j) (data X)).

(** The value stored at (i, j) in mode 'max'. *)
Definition max_cell (X : ndarray Q) (n p_h p_w i j : nat) : Q :=
  match window_data X n i j p_h p_w with
  | [] => 0%Q
  | x :: xs => foldl Qmax x xs
  end.

(** The value stored at (i, j) in mode 'avg'. *)
Definition avg_cell (X : ndarray Q) (n p_h p_w i j : nat) : Q :=
  jnp.mean (NDArray [p_h; p_w] (window_data X n i j p_h p_w)).

(** The two loops when every iteration stores [F i j] at (i, j). *)
Definition fill_row (F : nat → Q) (i : nat) (cols : list nat)
    (Y : ndarray Q) : ndarray Q :=
  foldl (λ Y j, at_set Y [i; j] (F j)) Y cols.

Definition fill (F : nat → nat → Q) (rows cols : list nat)
    (Y : ndarray Q) : ndarray Q :=
  foldl (λ Y i, fill_row (F i) i cols Y) Y rows.

(** The matrix 0..11 of shape (3, 4) of the notebook. *)
Definition X34 : ndarray Z := NDArray [3; 4] (Z.of_nat <$> seq 0 12).

(** ** Names and objects *)

(** Python variables hold references to array objects.  An object store
    is a list; a reference is a position in it. *)
Abbreviation store A := (list (ndarray A)).

Definition alloc {A} (X : ndarray A) (σ : store A) : nat * store A :=
  (length σ, σ ++ [X]).

(** The expression [X.at[idx].set(v)] where [X] refers to object [r]:
    the result is a fresh object.  [None] only for a reference to no
    object, which a Python name never holds. *)
Definition eval_at_set {A} (r : nat) (idx : list nat) (v : A)
    (σ : store A) : option (nat * store A) :=
  X ← σ !! r; Some (alloc (at_set X idx v) σ).

(** The expression [X.at[rs, cs].set(v)] with two slices. *)
Definition eval_at_set_slice2 {A} (r : nat) (rs cs : slice) (v : A)
    (σ : store A) : option (result (nat * store A)) :=
  X ← σ !! r; Some (Y ← at_set_slice2 X rs cs v; Ok (alloc Y σ)).

(** ** init-param.ipynb: initialisers *)

(** What the cells do to the world besides their arrays: they draw from
    the random number generator and they print. *)
Record world : Type := World {
  drawn : nat;                          (* draws made so far *)
  stdout : list (string * list nat)     (* 'Init', name, shape *)
}.

(** A random tape: [ω k] is the [k]-th draw of the generator, uniform in
    the unit interval. *)
Definition tape : Type := nat → Q.

(** Every draw lies in [0, 1). *)
Definition unit_draws (ω : tape) : Prop := ∀ k, (0 <= ω k < 1)%Q.

(** The functions of [mxnet.np] that [MyInit] and the built-in
    initialisers use. *)
Module np.

(** [np.random.uniform(low, high, shape)]: one draw per element,
    scaled into [low, high). *)
Definition random_uniform (ω : tape) (low high : Q) (shp : list nat)
    (σ : world) : ndarray Q * world :=
  (NDArray shp
     ((λ k, low + (high - low) * ω (drawn σ + k)%nat)%Q
        <$> seq 0 (prod shp)),
   World (drawn σ + prod shp) (stdout σ)).

(** [np.abs(data) >= c]: the comparison, element by element. *)
Definition abs_ge (X : ndarray Q) (c : Q) : ndarray bool :=
  NDArray (shape X) ((λ x, Qle_bool c (Qabs x)) <$> data X).

(** A boolean as a factor: True is 1, False is 0. *)
Definition of_bool (b : bool) : Q := if b then 1%Q else 0%Q.

(** [data[:] = v] for a scalar [v], in place. *)
Definition fill_all (X : ndarray Q) (v : Q) : ndarray Q :=
  NDArray (shape X) (replicate (length (data X)) v).

(** [data[:] = U] for an array [U] of the shape of [data], in place. *)
Definition assign_all (X U : ndarray Q) : ndarray Q :=
  NDArray (shape X) (data U).

(** [data *= mask], in place. *)
Definition imul_mask (X : ndarray Q) (mask : ndarray bool) : ndarray Q :=
  NDArray (shape X)
    (zip_with (λ x b, x * of_bool b)%Q (data X) (data mask)).

(** [np.zeros(shape)] *)
Definition zeros (shp : list nat) : ndarray Q :=
  NDArray shp (replicate (prod shp) 0%Q).

End np.

Module MyInit.

(** [MyInit._init_weight(self, name, data)].  The array [data] is
    updated in place: the function returns its new contents. *)
Definition _init_weight (ω : tape) (name : string) (data : ndarray Q)
    (σ : world) : ndarray Q * world :=
  let σ := World (drawn σ) (stdout σ ++ [(name, shape data)]) in
  let '(u, σ) := np.random_uniform ω (-10) 10 (shape data) σ in
  let data := np.assign_all data u in
  let data := np.imul_mask data (np.abs_ge data 5) in
  (data, σ).

End MyInit.

Module init.

(** The initialisers of the notebook whose values are rational in the
    draws: the built-in [Constant], [Zero] (the default of a bias) and
    [Uniform] (the default of [initialize]), and the notebook's own
    [MyInit]. *)
Inductive Initializer : Type :=
  | Constant (value : Q)
  | Zero
  | Uniform (scale : Q)
  | MyInit.

(** [initializer._init_weight(name, arr)] *)
Definition _init_weight (ω : tape) (i : Initializer) (name : string)
    (arr : ndarray Q) (σ : world) : ndarray Q * world :=
  match i with
  | Constant value => (np.fill_all arr value, σ)
  | Zero => (np.fill_all arr 0, σ)
  | Uniform scale =>
      let '(u, σ) := np.random_uniform ω (- scale) scale (shape arr) σ in
      (np.assign_all arr u, σ)
  | MyInit => MyInit._init_weight ω name arr σ
  end.

End init.

(** The part of [mxnet.gluon] behind [net.initialize]. *)
Module nn.

(** A [Parameter] of a layer whose shape is known: its name, its shape,
    the initialiser the layer attached to it (if any) and its array
    ([None] before the first initialisation). *)
Record Param : Type := mkParam {
  name : string;
  pshape : list nat;
  own_init : option init.Initializer;
  pdata : option (ndarray Q)
}.

(** [param.initialize(default_init=init, force_reinit=...)].  An
    initialised parameter is left alone unless [force_reinit]; the
    initialiser attached to the parameter takes precedence over the
    one passed down. *)
Definition Param_initialize (ω : tape) (default_init : init.Initializer)
    (force_reinit : bool) (p : Param) (σ : world)
  : Param * world :=
  if bool_decide (is_Some (pdata p)) && negb force_reinit then (p, σ)
  else
    let i := default default_init (own_init p) in
    let '(arr, σ) :=
      init._init_weight ω i (name p) (np.zeros (pshape p)) σ in
    (mkParam (name p) (pshape p) (own_init p) (Some arr), σ).

(** A dense layer: a weight and a bias. *)
Record Dense : Type := mkDense {
  weight : Param;
  bias : Param
}.

(** [nn.Dense(units)] once its input width is known: no initialiser
    attached to the weight, zeros attached to the bias. *)
Definition new_Dense (prefix : string) (units in_units : nat) : Dense :=
  mkDense (mkParam (prefix +:+ "weight") [units; in_units] None None)
          (mkParam (prefix +:+ "bias") [units] (Some init.Zero) None).

Definition Dense_initialize (ω : tape) (i : init.Initializer)
    (force_reinit : bool) (l : Dense) (σ : world) : Dense * world :=
  let '(w, σ) := Param_initialize ω i force_reinit (weight l) σ in
  let '(b, σ) := Param_initialize ω i force_reinit (bias l) σ in
  (mkDense w b, σ).

(** [net.initialize(init=i, force_reinit=...)] on an [nn.Sequential]
    of dense layers: every parameter in order. *)
Fixpoint initialize (ω : tape) (i : init.Initializer) (force_reinit : bool)
    (net : list Dense) (σ : world) : list Dense * world :=
  match net with
  | [] => ([], σ)
  | l :: net' =>
      let '(l, σ) := Dense_initialize ω i force_reinit l σ in
      let '(net', σ) := initialize ω i force_reinit net' σ in
      (l :: net', σ)
  end.

End nn.

(** The network of the notebook, on inputs of width 4. *)
Definition net0 : list nn.Dense :=
  [nn.new_Dense "dense0_" 8 4; nn.new_Dense "dense1_" 1 8].

(** A tape for examples: the draws 0, 1/2, 2/3, 3/4, ... *)
Definition tape0 : tape := λ k, (Z.of_nat k # Pos.of_nat (S k))%Q.

(** ** Further library functions of the notebooks *)

(** [jnp.concatenate((a, b), axis)] for a non-negative axis: the arrays
    are joined block by block along the axis.  [None] stands for the
    library's exception: the axis is not an axis of both arrays, or
    their shapes differ elsewhere than along the axis. *)
Definition concatenate {A} (a b : ndarray A) (axis : nat)
  : option (ndarray A) :=
  match drop axis (shape a), drop axis (shape b) with
  | da :: post, db :: post' =>
      if decide (take axis (shape a) = take axis (shape b) ∧ post = post')
      then
        let outer := prod (take axis (shape a)) in
        let blk := prod post in
        Some (NDArray (take axis (shape a) ++ (da + db) :: post)
                (seq 0 outer ≫= λ o,
                   block (da * blk) o (data a) ++ block (db * blk) o (data b)))
      else None
  | _, _ => None
  end.



(** A layer as [nn.Dense] builds it: nothing attached to the weight,
    zeros attached to the bias. *)
Definition plain_Dense (l : nn.Dense) : Prop :=
  nn.own_init (nn.weight l) = None ∧
  nn.own_init (nn.bias l) = Some init.Zero.

(** *** The library's pooling operator *)

(** The number of window positions along an axis of extent [len] for a
    window of extent [win] moved by [stride], without padding. *)
Definition pool_extent (len win stride : nat) : nat :=
  if decide (win ≤ len) then (len - win) `div` stride + 1 else 0.

(** The largest element of a window.  The library starts the reduction
    from minus infinity, which [Q] lacks; the windows of [max_pool] hold
    at least one element. *)
Definition reduce_max (l : list Q) : Q :=
  match l with
  | [] => 0%Q
  | x :: xs => foldl Qmax x xs
  end.

(** The elements of the input of shape (B, H, W, C) under the window at
    output position (b, i, j, c). *)
Definition pool_window (X : ndarray Q) (H W C wh ww sh sw b i j c : nat)
  : list Q :=
  seq (i * sh) wh ≫= λ r,
    seq (j * sw) ww ≫= λ q,
      option_list (data X !! (((b * H + r) * W + q) * C + c)).

(** [nn.max_pool(X, window_shape, strides, padding='VALID')] of flax on
    an input of shape (batch, height, width, channels), as the notebook
    calls it.  The model covers positive window and stride extents on
    inputs of four axes, and is [None] elsewhere. *)
Definition max_pool (X : ndarray Q) (window_shape strides : nat * nat)
  : option (ndarray Q) :=
  let '(wh, ww) := window_shape in
  let '(sh, sw) := strides in
  match shape X with
  | [B; H; W; C] =>
      if decide (0 < wh ∧ 0 < ww ∧ 0 < sh ∧ 0 < sw) then
        let oh := pool_extent H wh sh in
        let ow := pool_extent W ww sw in
        Some (NDArray [B; oh; ow; C]
                (seq 0 B ≫= λ b, seq 0 oh ≫= λ i,
                 seq 0 ow ≫= λ j, seq 0 C ≫= λ c,
                   [reduce_max (pool_window X H W C wh ww sh sw b i j c)]))
      else None
  | _ => None
  end.

(** [jnp.pad(X, pads, mode='constant')]: along every axis, so many zeros
    before and after.  [pad_data] pads a buffer of shape [s]; the list
    [pads] has one pair per axis. *)
Fixpoint pad_data (s : list nat) (pads : list (nat * nat)) (buf : list Q)
  : list Q :=
  match s, pads with
  | d :: s', (before, after) :: pads' =>
      let inner := prod (zip_with (λ e p, p.1 + e + p.2) s' pads') in
      replicate (before * inner) 0%Q ++
      (seq 0 d ≫= λ k, pad_data s' pads' (block (prod s') k buf)) ++
      replicate (after * inner) 0%Q
  | _, _ => buf
  end.

(** The model covers a list with one pair per axis, as the notebook
    passes it, and is [None] elsewhere. *)
Definition pad (X : ndarray Q) (pads : list (nat * nat))
  : option (ndarray Q) :=
  if decide (length pads = length (shape X)) then
    Some (NDArray (zip_with (λ e p, p.1 + e + p.2) (shape X) pads)
            (pad_data (shape X) pads (data X)))
  else None.

(** The input of the notebook's examples of the library operator:
    0..15 as one image of 4 x 4 with one channel. *)
Definition X1441 : ndarray Q :=
  NDArray [1; 4; 4; 1] ((λ k, inject_Z (Z.of_nat k)) <$> seq 0 16).

(** * Part II: properties *)

(** ** Offsets *)

Lemma ravel_from_bounds s : ∀ idx acc k,
  ravel_from acc s idx = Some k → acc * prod s ≤ k < (acc + 1) * prod s.
Proof.
  induction s as [|d s IH]; intros [|i idx] acc k; simpl; try done.
  - intros [= <-]. lia.
  - case_decide; [|done]. intros Hk. apply IH in Hk. nia.
Qed.

Lemma ravel_from_inj s : ∀ idx idx' acc k,
  ravel_from acc s idx = Some k → ravel_from acc s idx' = Some k →
  idx = idx'.
Proof.
  induction s as [|d s IH]; intros [|i idx] [|i' idx'] acc k; simpl;
    try done.
  repeat case_decide; try done. intros H1 H2.
  assert (i = i') as <-.
  { apply ravel_from_bounds in H1, H2. nia. }
  f_equal. by eapply IH.
Qed.

Lemma ravel_index_lt s idx k : ravel_index s idx = Some k → k < prod s.
Proof. intros H%ravel_from_bounds. lia. Qed.

Lemma ravel_index_inj s idx idx' k :
  ravel_index s idx = Some k → ravel_index s idx' = Some k → idx = idx'.
Proof. apply ravel_from_inj. Qed.

Lemma ravel_index_2 h w i j :
  i < h → j < w → ravel_index [h; w] [i; j] = Some (i * w + j).
Proof.
  intros Hi Hj. unfold ravel_index. simpl.
  rewrite !decide_True by lia. done.
Qed.

(** ** Reading and updating one element *)

Section at_set.
Context {A : Type}.
Implicit Types (X : ndarray A) (idx : list nat) (v : A).

Lemma shape_at_set X idx v : shape (at_set X idx v) = shape X.
Proof. unfold at_set. by destruct (ravel_index _ _). Qed.

Lemma length_at_set X idx v :
  length (data (at_set X idx v)) = length (data X).
Proof.
  unfold at_set. destruct (ravel_index _ _); simpl; [|done].
  apply length_insert.
Qed.

Lemma wf_at_set X idx v : wf X → wf (at_set X idx v).
Proof.
  unfold wf, size. by rewrite length_at_set, shape_at_set.
Qed.

Lemma getitem_is_Some X idx :
  wf X → is_Some (ravel_index (shape X) idx) → is_Some (getitem X idx).
Proof.
  intros Hwf [k Hk]. unfold getitem. rewrite Hk. simpl.
  apply lookup_lt_is_Some. rewrite Hwf. by eapply ravel_index_lt.
Qed.

Lemma getitem_at_set_eq X idx v :
  wf X → is_Some (ravel_index (shape X) idx) →
  getitem (at_set X idx v) idx = Some v.
Proof.
  intros Hwf [k Hk]. unfold getitem, at_set. rewrite Hk. simpl.
  rewrite Hk. simpl. apply list_lookup_insert_eq.
  rewrite Hwf. by eapply ravel_index_lt.
Qed.

Lemma getitem_at_set_ne X idx idx' v :
  idx ≠ idx' → getitem (at_set X idx v) idx' = getitem X idx'.
Proof.
  intros Hne. unfold getitem, at_set.
  destruct (ravel_index (shape X) idx) as [k|] eqn:Hk; [|done]. simpl.
  destruct (ravel_index (shape X) idx') as [k'|] eqn:Hk'; [|done]. simpl.
  apply list_lookup_insert_ne. intros ->.
  by eapply Hne, ravel_index_inj.
Qed.

End at_set.

(** ** Loops that only update *)

Lemma for_each_pure {S I} (P : S → Prop) (body : S → I → result S)
    (g : S → I → S) (l : list I) (s : S) :
  (∀ s x, P s → x ∈ l → body s x = Ok (g s x) ∧ P (g s x)) →
  P s → for_each body l s = Ok (foldl g s l) ∧ P (foldl g s l).
Proof.
  revert s. induction l as [|x l IH]; intros s Hbody Hs; simpl; [done|].
  destruct (Hbody s x Hs) as [-> Hs']; [left|]. simpl.
  apply IH; [|done]. intros s' y Hs'' Hy. apply Hbody; [done|by right].
Qed.

Lemma shape_fill_row F i cols Y : shape (fill_row F i cols Y) = shape Y.
Proof.
  revert Y. induction cols as [|j cols IH]; intros Y; simpl; [done|].
  unfold fill_row in *. simpl. by rewrite IH, shape_at_set.
Qed.

Lemma wf_fill_row F i cols Y : wf Y → wf (fill_row F i cols Y).
Proof.
  revert Y. induction cols as [|j cols IH]; intros Y HY; simpl; [done|].
  apply IH. by apply wf_at_set.
Qed.

Lemma shape_fill F rows cols Y : shape (fill F rows cols Y) = shape Y.
Proof.
  revert Y. induction rows as [|i rows IH]; intros Y; simpl; [done|].
  unfold fill in *. simpl. by rewrite IH, shape_fill_row.
Qed.

Lemma wf_fill F rows cols Y : wf Y → wf (fill F rows cols Y).
Proof.
  revert Y. induction rows as [|i rows IH]; intros Y HY; simpl; [done|].
  apply IH. by apply wf_fill_row.
Qed.

Lemma getitem_fill_row F i cols Y a b :
  wf Y → (∀ j, j ∈ cols → is_Some (ravel_index (shape Y) [i; j])) →
  getitem (fill_row F i cols Y) [a; b] =
    if decide (a = i ∧ b ∈ cols) then Some (F b) else getitem Y [a; b].
Proof.
  revert Y. induction cols as [|j cols IH]; intros Y HY Hin.
  { rewrite decide_False; [done|]. intros [_ H]. by inversion H. }
  unfold fill_row in *. simpl. rewrite IH.
  - destruct (decide ([i; j] = [a; b])) as [[= -> ->]|Hne].
    + rewrite getitem_at_set_eq by (try apply Hin; by try left).
      rewrite (decide_True (P := _ ∧ b ∈ b :: _)) by (split; [done|left]).
      by case_decide.
    + rewrite getitem_at_set_ne by done.
      destruct (decide (a = i ∧ b ∈ cols)) as [[-> Hb]|Hn].
      * rewrite decide_True; [done|]. split; [done|by right].
      * rewrite decide_False; [done|]. intros [-> Hb].
        apply elem_of_cons in Hb as [->|Hb]; [done|]. by apply Hn.
  - by apply wf_at_set.
  - intros j' Hj'. rewrite shape_at_set. apply Hin. by right.
Qed.

Lemma getitem_fill F rows cols Y a b :
  wf Y →
  (∀ i j, i ∈ rows → j ∈ cols → is_Some (ravel_index (shape Y) [i; j])) →
  getitem (fill F rows cols Y) [a; b] =
    if decide (a ∈ rows ∧ b ∈ cols) then Some (F a b) else getitem Y [a; b].
Proof.
  revert Y. induction rows as [|i rows IH]; intros Y HY Hin.
  { rewrite decide_False; [done|]. intros [H _]. by inversion H. }
  unfold fill in *. simpl. rewrite IH.
  - rewrite getitem_fill_row; [|done|].
    2:{ intros j Hj. apply Hin; [left|done]. }
    destruct (decide (a ∈ rows ∧ b ∈ cols)) as [[Ha Hb]|Hn].
    + rewrite (decide_True (P := a ∈ i :: _ ∧ _)); [done|].
      split; [by right|done].
    + destruct (decide (a = i ∧ b ∈ cols)) as [[-> Hb]|Hn'].
      * rewrite decide_True; [done|]. split; [left|done].
      * rewrite decide_False; [done|]. intros [Ha Hb].
        apply elem_of_cons in Ha as [->|Ha]; [by apply Hn'|by apply Hn].
  - by apply wf_fill_row.
  - intros i' j' Hi' Hj'. rewrite shape_fill_row. apply Hin; [by right|done].
Qed.

(** ** Slices and windows *)

Lemma adjust_bound_nat len k : k ≤ len → adjust_bound len (Z.of_nat k) = k.
Proof.
  intros Hk. unfold adjust_bound.
  destruct (Z.ltb_spec (Z.of_nat k) 0); lia.
Qed.

Lemma slice2_window {A} (X : ndarray A) m n i j p_h p_w :
  shape X = [m; n] → i + p_h ≤ m → j + p_w ≤ n →
  slice2 X (Some (Z.of_nat i), Some (Z.of_nat i + Z.of_nat p_h)%Z)
           (Some (Z.of_nat j), Some (Z.of_nat j + Z.of_nat p_w)%Z)
  = Ok (NDArray [p_h; p_w] (window_data X n i j p_h p_w)).
Proof.
  intros HX Hi Hj. unfold slice2, slice_indices, window_data.
  rewrite HX. simpl. rewrite <- !Nat2Z.inj_add.
  rewrite !adjust_bound_nat by lia.
  replace (i + p_h - i) with p_h by lia.
  replace (j + p_w - j) with p_w by lia.
  do 2 f_equal. apply list_bind_ext; [|done].
  intros a. by rewrite !Nat.mul_1_r.
Qed.

Lemma elem_of_take_drop {A} (l : list A) k p x :
  x ∈ take p (drop k l) ↔ ∃ b, b < p ∧ l !! (k + b) = Some x.
Proof.
  rewrite list_elem_of_lookup. split.
  - intros [b Hb]. apply lookup_take_Some in Hb as [Hb ?].
    rewrite lookup_drop in Hb. eauto.
  - intros (b & ? & Hb). exists b. apply lookup_take_Some.
    by rewrite lookup_drop.
Qed.

Lemma elem_of_window_data {A} (X : ndarray A) m n i j p_h p_w x :
  shape X = [m; n] → i + p_h ≤ m → j + p_w ≤ n →
  x ∈ window_data X n i j p_h p_w ↔
  ∃ a b, in_window i j p_h p_w a b ∧ getitem X [a; b] = Some x.
Proof.
  intros HX Hi Hj. unfold window_data, in_window, getitem.
  rewrite list_elem_of_bind. split.
  - intros (a & (b & Hb & Hx)%elem_of_take_drop & Ha%elem_of_seq).
    exists a, (j + b). rewrite HX, ravel_index_2 by lia. simpl.
    rewrite Nat.add_assoc. split; [lia|done].
  - intros (a & b & [Ha Hb] & Hx).
    rewrite HX, ravel_index_2 in Hx by lia. simpl in Hx.
    exists a. split; [|apply elem_of_seq; lia].
    apply elem_of_take_drop. exists (b - j). split; [lia|].
    by replace (a * n + j + (b - j)) with (a * n + b) by lia.
Qed.

Lemma length_window_data {A} (X : ndarray A) m n i j p_h p_w :
  shape X = [m; n] → wf X → i + p_h ≤ m → j + p_w ≤ n →
  length (window_data X n i j p_h p_w) = p_h * p_w.
Proof.
  intros HX Hwf Hi Hj. unfold window_data.
  unfold wf, size in Hwf. rewrite HX in Hwf. simpl in Hwf.
  revert i Hi. induction p_h as [|p IH]; intros i Hi; [done|].
  simpl. rewrite length_app, IH by lia.
  rewrite length_take, length_drop. nia.
Qed.

(** ** The largest element of a list *)

Lemma foldl_Qmax_elem x xs : foldl Qmax x xs ∈ x :: xs.
Proof.
  revert x. induction xs as [|y xs IH]; intros x; simpl; [left|].
  specialize (IH (Qmax x y)).
  apply elem_of_cons in IH as [->|IH]; [|by do 2 right].
  unfold Qmax, GenericMinMax.gmax. destruct (x ?= y)%Q; (left || (right; left)).
Qed.

Lemma foldl_Qmax_acc x xs : (x <= foldl Qmax x xs)%Q.
Proof.
  revert x. induction xs as [|y xs IH]; intros x; simpl; [apply Qle_refl|].
  eapply Qle_trans; [apply Q.le_max_l|apply IH].
Qed.

Lemma foldl_Qmax_ge x xs y : y ∈ x :: xs → (y <= foldl Qmax x xs)%Q.
Proof.
  revert x. induction xs as [|z xs IH]; intros x Hy.
  - apply list_elem_of_singleton in Hy as ->. apply Qle_refl.
  - simpl. apply elem_of_cons in Hy as [->|Hy].
    + eapply Qle_trans; [apply Q.le_max_l|apply foldl_Qmax_acc].
    + apply elem_of_cons in Hy as [->|Hy].
      * eapply Qle_trans; [apply Q.le_max_r|apply foldl_Qmax_acc].
      * apply IH. by right.
Qed.

(** ** Running [pool2d] *)

Lemma zeros_nat (s : list nat) :
  jnp.zeros (Z.of_nat <$> s) = Ok (NDArray s (replicate (prod s) 0%Q)).
Proof.
  unfold jnp.zeros.
  assert (forallb (Z.leb 0) (Z.of_nat <$> s) = true) as ->.
  { induction s as [|d s IH]; [done|]. csimpl. rewrite IH.
    rewrite andb_true_r. apply Z.leb_le. lia. }
  assert (Z.to_nat <$> (Z.of_nat <$> s) = s) as ->; [|done].
  induction s as [|d s IH]; [done|]. csimpl. by rewrite Nat2Z.id, IH.
Qed.

Lemma pool2d_run X m n p_h p_w mode h w
    (G : nat → nat → ndarray Q → ndarray Q) :
  shape X = [m; n] →
  (Z.of_nat m - p_h + 1)%Z = Z.of_nat h →
  (Z.of_nat n - p_w + 1)%Z = Z.of_nat w →
  (∀ i j Y, i < h → j < w →
     pool2d_body X p_h p_w mode i Y j = Ok (G i j Y)) →
  (∀ i j Y, shape (G i j Y) = shape Y) →
  pool2d X (p_h, p_w) mode =
    Ok (foldl (λ Y i, foldl (λ Y j, G i j Y) Y (range w))
          (NDArray [h; w] (replicate (prod [h; w]) 0%Q)) (range h)).
Proof.
  intros HX Hh Hw Hbody HG. unfold pool2d, shape_at. rewrite HX. simpl.
  rewrite Hh, Hw. change [Z.of_nat h; Z.of_nat w] with (Z.of_nat <$> [h; w]).
  rewrite zeros_nat. simpl.
  apply (for_each_pure (λ Y, shape Y = [h; w])); [|done].
  intros Y i HY Hi%elem_of_seq. rewrite HY. simpl.
  apply (for_each_pure (λ Y, shape Y = [h; w])); [|done].
  intros Y' j HY' Hj%elem_of_seq. rewrite Hbody by lia.
  by rewrite HG.
Qed.

Lemma pool2d_fill X m n p_h p_w mode (F : nat → nat → Q) :
  shape X = [m; n] → p_h ≤ m → p_w ≤ n →
  (∀ i j Y, i + p_h ≤ m → j + p_w ≤ n →
     pool2d_body X (Z.of_nat p_h) (Z.of_nat p_w) mode i Y j =
       Ok (at_set Y [i; j] (F i j))) →
  ∃ Y, pool2d X (Z.of_nat p_h, Z.of_nat p_w) mode = Ok Y ∧
       shape Y = [m - p_h + 1; n - p_w + 1] ∧ wf Y ∧
       ∀ i j, i < m - p_h + 1 → j < n - p_w + 1 →
         getitem Y [i; j] = Some (F i j).
Proof.
  intros HX Hh Hw Hbody.
  set (h := m - p_h + 1). set (w := n - p_w + 1).
  set (Y0 := NDArray [h; w] (replicate (prod [h; w]) 0%Q)).
  assert (wf Y0) as HY0 by (unfold wf, Y0; simpl; apply length_replicate).
  exists (fill F (range h) (range w) Y0). split_and!.
  - apply (pool2d_run X m n _ _ _ h w (λ i j Y, at_set Y [i; j] (F i j)));
      [done|lia|lia| |].
    + intros i j Y Hi Hj. apply Hbody; lia.
    + intros. apply shape_at_set.
  - by rewrite shape_fill.
  - by apply wf_fill.
  - intros i j Hi Hj. rewrite getitem_fill; [|done|].
    + by rewrite decide_True by (unfold range; rewrite !elem_of_seq; lia).
    + intros i' j' Hi'%elem_of_seq Hj'%elem_of_seq. simpl.
      rewrite ravel_index_2 by lia. done.
Qed.

Lemma pool2d_body_max X m n p_h p_w i j Y :
  shape X = [m; n] → wf X → 0 < p_h → 0 < p_w →
  i + p_h ≤ m → j + p_w ≤ n →
  pool2d_body X (Z.of_nat p_h) (Z.of_nat p_w) "max" i Y j =
    Ok (at_set Y [i; j] (max_cell X n p_h p_w i j)) ∧
  window_max X i j p_h p_w (max_cell X n p_h p_w i j).
Proof.
  intros HX Hwf Hh Hw Hi Hj. unfold pool2d_body, max_cell, window_at. simpl.
  rewrite (slice2_window X m n) by done. simpl. unfold jnp.max. simpl.
  pose proof (length_window_data X m n i j p_h p_w HX Hwf Hi Hj) as Hlen.
  pose proof (elem_of_window_data X m n i j p_h p_w) as Helem.
  destruct (window_data X n i j p_h p_w) as [|x xs]; simpl in *; [nia|].
  split; [done|]. split.
  - apply Helem; [done..|]. apply foldl_Qmax_elem.
  - intros a b Hab.
    assert (is_Some (getitem X [a; b])) as [y Hy].
    { apply getitem_is_Some; [done|]. unfold in_window in Hab.
      rewrite HX, ravel_index_2 by lia. done. }
    exists y. split; [done|]. apply foldl_Qmax_ge, Helem; eauto.
Qed.

(** C1: max pooling.  For a matrix X of shape (m, n) and a window
    (p_h, p_w) with 1 <= p_h <= m and 1 <= p_w <= n, pool2d in mode 'max'
    returns a matrix of shape (m - p_h + 1, n - p_w + 1) whose entry at
    (i, j) is the maximum of X[i..i+p_h-1, j..j+p_w-1]; on the 3x3
    example with window (2, 2) it returns [[4, 5], [7, 8]]. *)
Theorem pool2d_max_spec (X : ndarray Q) (m n p_h p_w : nat) :
  shape X = [m; n] → wf X → 1 ≤ p_h ≤ m → 1 ≤ p_w ≤ n →
  (∃ Y, pool2d X (Z.of_nat p_h, Z.of_nat p_w) "max" = Ok Y ∧
        shape Y = [m - p_h + 1; n - p_w + 1] ∧ wf Y ∧
        ∀ i j, i < m - p_h + 1 → j < n - p_w + 1 →
          ∃ y, getitem Y [i; j] = Some y ∧ window_max X i j p_h p_w y) ∧
  pool2d X33 (2, 2)%Z "max" =
    Ok (NDArray [2; 2] (inject_Z <$> [4; 5; 7; 8]%Z)).
Proof.
  intros HX Hwf Hh Hw. split; [|done].
  destruct (pool2d_fill X m n p_h p_w "max" (max_cell X n p_h p_w))
    as (Y & HY & Hshape & HwfY & Hcells); [done|lia|lia| |].
  { intros i j Y Hi Hj. apply (pool2d_body_max X m n); [done|done|lia..]. }
  exists Y. split_and!; [done..|].
  intros i j Hi Hj. exists (max_cell X n p_h p_w i j).
  split; [by apply Hcells|].
  apply (pool2d_body_max X m n p_h p_w i j Y); [done|done|lia..].
Qed.

Lemma pool2d_max_spec_witness :
  shape X33 = [3; 3] ∧ wf X33 ∧ 1 ≤ 2 ≤ 3 ∧
  ((∃ Y, pool2d X33 (Z.of_nat 2, Z.of_nat 2) "max" = Ok Y ∧
         shape Y = [3 - 2 + 1; 3 - 2 + 1] ∧ wf Y ∧
         ∀ i j, i < 3 - 2 + 1 → j < 3 - 2 + 1 →
           ∃ y, getitem Y [i; j] = Some y ∧ window_max X33 i j 2 2 y) ∧
   pool2d X33 (2, 2)%Z "max" =
     Ok (NDArray [2; 2] (inject_Z <$> [4; 5; 7; 8]%Z))).
Proof.
  split; [reflexivity|]. split; [reflexivity|]. split; [lia|].
  apply (pool2d_max_spec X33 3 3 2 2); [reflexivity|reflexivity|lia|lia].
Defined.

(** ** Average pooling *)

Lemma sum_app l1 l2 : (jnp.sum (l1 ++ l2) == jnp.sum l1 + jnp.sum l2)%Q.
Proof.
  induction l1 as [|x l1 IH]; simpl; [ring|]. rewrite IH. ring.
Qed.

Lemma window_row (X : ndarray Q) m n a j p_w :
  shape X = [m; n] → wf X → a < m → j + p_w ≤ n →
  take p_w (drop (a * n + j) (data X)) = get2 X a <$> seq j p_w.
Proof.
  intros HX Hwf Ha Hj. apply list_eq. intros k.
  rewrite lookup_take, lookup_drop, list_lookup_fmap.
  case_decide as Hk.
  - rewrite lookup_seq_lt by done. simpl. unfold get2, getitem.
    rewrite HX, ravel_index_2 by lia. simpl. rewrite Nat.add_assoc.
    destruct (lookup_lt_is_Some_2 (data X) (a * n + j + k)) as [x ->];
      [|done].
    unfold wf, size in Hwf. rewrite Hwf, HX. simpl. nia.
  - by rewrite lookup_seq_ge by lia.
Qed.

Lemma sum_window_data (X : ndarray Q) m n i j p_h p_w :
  shape X = [m; n] → wf X → i + p_h ≤ m → j + p_w ≤ n →
  (jnp.sum (window_data X n i j p_h p_w) == window_sum X i j p_h p_w)%Q.
Proof.
  intros HX Hwf Hi Hj. unfold window_data, window_sum.
  revert i Hi. induction p_h as [|p IH]; intros i Hi; [done|].
  simpl. rewrite sum_app, IH by lia.
  by rewrite (window_row X m n) by (done || lia).
Qed.

Lemma pool2d_body_avg X m n p_h p_w i j Y :
  shape X = [m; n] → wf X → i + p_h ≤ m → j + p_w ≤ n →
  pool2d_body X (Z.of_nat p_h) (Z.of_nat p_w) "avg" i Y j =
    Ok (at_set Y [i; j] (avg_cell X n p_h p_w i j)) ∧
  (avg_cell X n p_h p_w i j ==
     window_sum X i j p_h p_w / inject_Z (Z.of_nat (p_h * p_w)))%Q.
Proof.
  intros HX Hwf Hi Hj. unfold pool2d_body, avg_cell, window_at. simpl.
  rewrite (slice2_window X m n) by done. simpl. split; [done|].
  unfold jnp.mean. simpl.
  rewrite (length_window_data X m n) by done.
  by rewrite (sum_window_data X m n) by done.
Qed.



(** The notebook's average-pooling example: [[2, 3], [5, 6]]. *)
Example pool2d_avg_example :
  ∃ Y, pool2d X33 (2, 2)%Z "avg" = Ok Y ∧ shape Y = [2; 2] ∧
       Forall2 Qeq (data Y) (inject_Z <$> [2; 3; 5; 6]%Z).
Proof. eexists. split; [reflexivity|]. split; [done|]. by repeat constructor. Qed.

(** ** Modes other than 'max' and 'avg' *)

Lemma foldl_skip {S I} (g : S → I → S) (l : list I) (s : S) :
  (∀ s x, g s x = s) → foldl g s l = s.
Proof. intros Hg. induction l as [|x l IH]; simpl; [done|]. by rewrite Hg. Qed.

(** C8: any other mode.  For a matrix X of shape (m, n), a window with
    p_h <= m and p_w <= n and a mode that is neither 'max' nor 'avg',
    pool2d raises nothing and returns the zero matrix of shape
    (m - p_h + 1, n - p_w + 1). *)
Theorem pool2d_other_mode (X : ndarray Q) (m n : nat) (p_h p_w : Z)
    (mode : string) :
  shape X = [m; n] → (p_h ≤ Z.of_nat m)%Z → (p_w ≤ Z.of_nat n)%Z →
  mode ≠ "max" → mode ≠ "avg" →
  let h := Z.to_nat (Z.of_nat m - p_h + 1) in
  let w := Z.to_nat (Z.of_nat n - p_w + 1) in
  pool2d X (p_h, p_w) mode = Ok (NDArray [h; w] (replicate (h * w) 0%Q)).
Proof.
  intros HX Hh Hw Hmax Havg h w.
  rewrite (pool2d_run X m n p_h p_w mode h w (λ _ _ Y, Y)); [|done|lia..| |done].
  - rewrite foldl_skip; [simpl; by rewrite Nat.mul_1_r|].
    intros Y i. by apply foldl_skip.
  - intros i j Y _ _. unfold pool2d_body.
    apply String.eqb_neq in Hmax, Havg. by rewrite Hmax, Havg.
Qed.

Lemma pool2d_other_mode_witness :
  shape X33 = [3; 3] ∧
  pool2d X33 (2, 2)%Z "min" =
    Ok (NDArray [2; 2] (replicate (2 * 2) 0%Q)).
Proof.
  split; [reflexivity|].
  apply (pool2d_other_mode X33 3 3 2 2 "min");
    [reflexivity|lia|lia|discriminate|discriminate].
Defined.

(** ** Exceptions *)

Section for_each.
Context {S I : Type} (P : S → Prop) (body : S → I → result S).

Lemma for_each_inv l s s' :
  (∀ s x s', P s → x ∈ l → body s x = Ok s' → P s') →
  P s → for_each body l s = Ok s' → P s'.
Proof.
  revert s. induction l as [|x l IH]; intros s Hbody Hs; simpl.
  { by intros [= <-]. }
  destruct (body s x) as [s1|e1] eqn:Hx; simpl; [|done].
  apply IH; [|by eapply Hbody; [|left|]].
  intros s2 y s3 ? ?. apply Hbody; [done|by right].
Qed.

Lemma for_each_raise_inv l s e :
  (∀ s x s', P s → x ∈ l → body s x = Ok s' → P s') →
  P s → for_each body l s = Raise e →
  ∃ s' x, P s' ∧ x ∈ l ∧ body s' x = Raise e.
Proof.
  revert s. induction l as [|x l IH]; intros s Hbody Hs; simpl; [done|].
  destruct (body s x) as [s1|e1] eqn:Hx; simpl.
  - intros (s' & y & ? & ? & ?)%IH.
    + exists s', y. split_and!; [done|by right|done].
    + intros s2 y s3 ? ?. apply Hbody; [done|by right].
    + eapply Hbody; [done|left|done].
  - intros [= ->]. exists s, x. split_and!; [done|left|done].
Qed.

Lemma for_each_cases l s e :
  (∀ s x, P s → x ∈ l →
     body s x = Raise e ∨ ∃ s', body s x = Ok s' ∧ P s') →
  P s →
  for_each body l s = Raise e ∨ ∃ s', for_each body l s = Ok s' ∧ P s'.
Proof.
  revert s. induction l as [|x l IH]; intros s Hbody Hs; simpl; [eauto|].
  destruct (Hbody s x Hs) as [->|(s' & -> & Hs')]; [left|by left|]; simpl.
  apply IH; [|done]. intros s2 y ? ?. apply Hbody; [done|by right].
Qed.

Lemma for_each_raises l s e x :
  (∀ s x, P s → x ∈ l →
     body s x = Raise e ∨ ∃ s', body s x = Ok s' ∧ P s') →
  x ∈ l → (∀ s, P s → body s x = Raise e) →
  P s → for_each body l s = Raise e.
Proof.
  revert s. induction l as [|y l IH]; intros s Hbody Hx Hfail Hs.
  { by inversion Hx. }
  simpl. destruct (Hbody s y Hs) as [->|(s' & Hy & Hs')]; [left|done|].
  rewrite Hy. simpl. apply elem_of_cons in Hx as [->|Hx].
  { rewrite Hfail in Hy by done. done. }
  apply IH; [|done..]. intros s2 z ? ?. apply Hbody; [done|by right].
Qed.

End for_each.

Lemma zeros_Ok dims Y :
  jnp.zeros dims = Ok Y →
  Y = NDArray (Z.to_nat <$> dims) (replicate (prod (Z.to_nat <$> dims)) 0%Q).
Proof. unfold jnp.zeros. case_match; congruence. Qed.

Lemma max_Raise W e : jnp.max W = Raise e → e = ZeroSizeReduction.
Proof. unfold jnp.max. case_match; congruence. Qed.

Lemma slice2_matrix {A} (X : ndarray A) m n r c :
  shape X = [m; n] → ∃ W, slice2 X r c = Ok W.
Proof.
  intros HX. unfold slice2. rewrite HX.
  destruct (slice_indices r m), (slice_indices c n). eauto.
Qed.

Section pool2d_exceptions.
Context (X : ndarray Q) (m n : nat) (p_h p_w : Z).
Context (HX : shape X = [m; n]).

Lemma pool2d_body_cases mode i Y j :
  ∃ W, window_at X p_h p_w i j = Ok W ∧
    ((mode = "max" ∧
      pool2d_body X p_h p_w mode i Y j =
        v ← jnp.max W; Ok (at_set Y [i; j] v)) ∨
     (mode ≠ "max" ∧
      ∃ Y', pool2d_body X p_h p_w mode i Y j = Ok Y' ∧
            shape Y' = shape Y)).
Proof using HX.
  destruct (slice2_matrix X m n
    (Some (Z.of_nat i), Some (Z.of_nat i + p_h)%Z)
    (Some (Z.of_nat j), Some (Z.of_nat j + p_w)%Z) HX) as [W HW].
  fold (window_at X p_h p_w i j) in HW.
  exists W. split; [done|]. unfold pool2d_body. rewrite HW.
  destruct (String.eqb_spec mode "max") as [->|Hmax]; [left; by simpl|].
  right. split; [done|].
  destruct (String.eqb mode "avg"); simpl; eauto using shape_at_set.
Qed.

Lemma pool2d_body_shape mode i Y j Y' :
  pool2d_body X p_h p_w mode i Y j = Ok Y' → shape Y' = shape Y.
Proof using HX.
  destruct (pool2d_body_cases mode i Y j)
    as (W & _ & [[_ ->]|(_ & Y1 & -> & HY1)]).
  - destruct (jnp.max W); simpl; [|done].
    intros [= <-]. apply shape_at_set.
  - by intros [= <-].
Qed.

Lemma pool2d_body_step mode i Y j :
  pool2d_body X p_h p_w mode i Y j = Raise ZeroSizeReduction ∨
  ∃ Y', pool2d_body X p_h p_w mode i Y j = Ok Y' ∧ shape Y' = shape Y.
Proof using HX.
  destruct (pool2d_body X p_h p_w mode i Y j) as [Y'|e] eqn:Hb.
  - right. eauto using pool2d_body_shape.
  - left. f_equal.
    destruct (pool2d_body_cases mode i Y j)
      as (W & _ & [[_ Hm]|(_ & Y1 & HY1 & _)]); [|congruence].
    rewrite Hm in Hb. destruct (jnp.max W) eqn:HW; [done|].
    apply max_Raise in HW. simpl in Hb. congruence.
Qed.

(** [pool2d] once the output buffer Y is allocated. *)
Lemma pool2d_after_zeros mode Y h w :
  jnp.zeros [(Z.of_nat m - p_h + 1)%Z; (Z.of_nat n - p_w + 1)%Z] = Ok Y →
  shape Y = [h; w] →
  pool2d X (p_h, p_w) mode =
    for_each (λ Y i,
      w ← shape_at Y 1;
      for_each (pool2d_body X p_h p_w mode i) (range w) Y) (range h) Y.
Proof using HX.
  intros HY Hs. unfold pool2d, shape_at. rewrite HX. simpl.
  rewrite HY. simpl. by rewrite Hs.
Qed.

Lemma pool2d_zeros_raises mode e :
  jnp.zeros [(Z.of_nat m - p_h + 1)%Z; (Z.of_nat n - p_w + 1)%Z]
    = Raise e →
  pool2d X (p_h, p_w) mode = Raise e.
Proof using HX.
  intros HY. unfold pool2d, shape_at. rewrite HX. simpl. by rewrite HY.
Qed.

Lemma pool2d_max_raises Y h w i j W e :
  jnp.zeros [(Z.of_nat m - p_h + 1)%Z; (Z.of_nat n - p_w + 1)%Z] = Ok Y →
  shape Y = [h; w] → i < h → j < w →
  window_at X p_h p_w i j = Ok W → jnp.max W = Raise e →
  pool2d X (p_h, p_w) "max" = Raise e.
Proof using HX.
  intros HY Hs Hi Hj HW He. rewrite (pool2d_after_zeros _ Y h w) by done.
  pose proof (max_Raise _ _ He) as ->.
  assert (∀ i' Y',
    shape Y' = [h; w] →
    ∀ j', pool2d_body X p_h p_w "max" i' Y' j' = Raise ZeroSizeReduction ∨
      ∃ Y'', pool2d_body X p_h p_w "max" i' Y' j' = Ok Y'' ∧
             shape Y'' = [h; w]) as Hstep.
  { intros i' Y' HY' j'.
    destruct (pool2d_body_step "max" i' Y' j') as [?|(Y'' & ? & HY'')];
      [by left|right]. exists Y''. by rewrite HY'', HY'. }
  apply (for_each_raises (λ Y, shape Y = [h; w]) _ _ _ _ i);
    [|apply elem_of_seq; lia| |done].
  - intros Y' i' HY' _. unfold shape_at. rewrite HY'. simpl.
    apply (for_each_cases (λ Y, shape Y = [h; w])); [|done].
    intros Y'' j' HY'' _. by apply Hstep.
  - intros Y' HY'. unfold shape_at. rewrite HY'. simpl.
    apply (for_each_raises (λ Y, shape Y = [h; w]) _ _ _ _ j);
      [|apply elem_of_seq; lia| |done].
    + intros Y'' j' HY'' _. by apply Hstep.
    + intros Y'' _.
      destruct (pool2d_body_cases "max" i Y'' j)
        as (W' & HW' & [[_ ->]|[? _]]); [|done].
      rewrite HW in HW'. injection HW' as <-. by rewrite He.
Qed.

Lemma pool2d_raise_origin mode e :
  pool2d X (p_h, p_w) mode = Raise e →
  jnp.zeros [(Z.of_nat m - p_h + 1)%Z; (Z.of_nat n - p_w + 1)%Z]
    = Raise e ∨
  ∃ Y h w i j W,
    jnp.zeros [(Z.of_nat m - p_h + 1)%Z; (Z.of_nat n - p_w + 1)%Z]
      = Ok Y ∧
    shape Y = [h; w] ∧ i < h ∧ j < w ∧
    mode = "max" ∧ window_at X p_h p_w i j = Ok W ∧ jnp.max W = Raise e.
Proof using HX.
  destruct (jnp.zeros _) as [Y|e0] eqn:HY.
  2:{ rewrite (pool2d_zeros_raises _ e0) by done. intros [= ->]. by left. }
  intros Hrun. right.
  pose proof (zeros_Ok _ _ HY) as HYs. apply (f_equal shape) in HYs.
  simpl in HYs. set (h := Z.to_nat _) in HYs. set (w := Z.to_nat _) in HYs.
  rewrite (pool2d_after_zeros _ Y h w) in Hrun by done.
  assert (∀ i l Y1 Y2,
    shape Y1 = [h; w] →
    for_each (pool2d_body X p_h p_w mode i) l Y1 = Ok Y2 →
    shape Y2 = [h; w]) as Hrow_shape.
  { intros i l Y1 Y2 HY1.
    apply (for_each_inv (λ Y, shape Y = [h; w])); [|done].
    intros Y3 j Y4 HY3 _ ->%pool2d_body_shape. done. }
  assert (∀ Y1 i Y2,
    shape Y1 = [h; w] → i ∈ range h →
    (w ← shape_at Y1 1;
     for_each (pool2d_body X p_h p_w mode i) (range w) Y1) = Ok Y2 →
    shape Y2 = [h; w]) as Houter.
  { intros Y1 i Y2 HY1 _. unfold shape_at. rewrite HY1. simpl.
    by apply Hrow_shape. }
  destruct (for_each_raise_inv (λ Y, shape Y = [h; w]) _ _ _ _
              Houter HYs Hrun) as (Y1 & i & HY1 & Hi & Hrow).
  apply elem_of_seq in Hi.
  unfold shape_at in Hrow. rewrite HY1 in Hrow. simpl in Hrow.
  destruct (for_each_raise_inv (λ Y, shape Y = [h; w]) _ _ _ _
    (λ Y2 j Y3 HY2 _ Hb,
       eq_trans (pool2d_body_shape mode i Y2 j Y3 Hb) HY2) HY1 Hrow)
    as (Y2 & j & HY2 & Hj & Hcell).
  apply elem_of_seq in Hj.
  destruct (pool2d_body_cases mode i Y2 j)
    as (W & HW & [[-> Hm]|(_ & Y3 & HY3 & _)]); [|congruence].
  exists Y, h, w, i, j, W. split_and!; try done; try lia.
  rewrite Hm in Hcell. destruct (jnp.max W); [done|].
  simpl in Hcell. congruence.
Qed.

End pool2d_exceptions.

(** ** Reshape *)

Lemma prod_app s t : prod (s ++ t) = prod s * prod t.
Proof. induction s as [|d s IH]; simpl; [lia|]. rewrite IH. lia. Qed.

Lemma filter_known (s : list nat) :
  filter (λ d, d ≠ (-1)%Z) (Z.of_nat <$> s) = Z.of_nat <$> s.
Proof.
  induction s as [|d s IH]; [done|]. csimpl.
  rewrite filter_cons_True by lia. by rewrite IH.
Qed.

Lemma no_negative_extent (s : list nat) :
  ¬ Exists (λ d, (d < 0)%Z) (Z.of_nat <$> s).
Proof. rewrite Exists_fmap, Exists_exists. intros (d & _ & Hd). simpl in Hd. lia. Qed.

Lemma Zprod_of_nat (s : list nat) :
  Z.to_nat (foldr Z.mul 1%Z (Z.of_nat <$> s)) = prod s.
Proof.
  assert (foldr Z.mul 1%Z (Z.of_nat <$> s) = Z.of_nat (prod s)) as ->;
    [|apply Nat2Z.id].
  induction s as [|d s IH]; [done|]. csimpl. rewrite IH. lia.
Qed.


Lemma fmap_to_nat_of_nat (s : list nat) : Z.to_nat <$> (Z.of_nat <$> s) = s.
Proof. induction s as [|d s IH]; [done|]. csimpl. by rewrite Nat2Z.id, IH. Qed.

(** Reshaping to a shape given in full. *)
Lemma reshape_explicit {A} (x : ndarray A) (s : list nat) :
  prod s = size x → reshape x (Z.of_nat <$> s) = Ok (NDArray s (data x)).
Proof.
  intros Hs. unfold reshape. rewrite filter_known.
  rewrite decide_False by apply no_negative_extent.
  rewrite decide_True by done. rewrite Zprod_of_nat.
  rewrite decide_True by done. by rewrite fmap_to_nat_of_nat.
Qed.


(** C3: reshape keeps the elements and their row-major order.  For x of
    size n and a target (h, w) with h * w = n, x.reshape(h, w) has n
    elements and X[i, j] is element i * w + j of x in row-major order,
    which is x[i * w + j] when x is a vector; for the vector 0..11
    reshaped to (3, 4), x[3] and X[0, 3] are the same element. *)
Theorem reshape_row_major {A} (x : ndarray A) (h w : nat) :
  wf x → h * w = size x →
  (∃ X, reshape x [Z.of_nat h; Z.of_nat w] = Ok X ∧
        shape X = [h; w] ∧ size X = size x ∧
        length (data X) = size x ∧ data X = data x ∧
        ∀ i j, i < h → j < w →
          is_Some (getitem X [i; j]) ∧
          getitem X [i; j] = data x !! (i * w + j) ∧
          (shape x = [size x] → getitem X [i; j] = getitem x [i * w + j])) ∧
  (∃ X, reshape (jnp.arange 12) [3; 4]%Z = Ok X ∧
        getitem (jnp.arange 12) [3] = Some 3%Z ∧
        getitem X [0; 3] = Some 3%Z).
Proof.
  intros Hwf Hn. split.
  2:{ eexists. split; [reflexivity|]. split; reflexivity. }
  exists (NDArray [h; w] (data x)).
  split; [apply (reshape_explicit x [h; w]); simpl; lia|].
  split_and!; try done.
  { unfold size in *. simpl. lia. }
  intros i j Hi Hj.
  assert (getitem (NDArray [h; w] (data x)) [i; j] = data x !! (i * w + j))
    as Hget.
  { unfold getitem. simpl shape. by rewrite ravel_index_2 by done. }
  split_and!; [|done|].
  - rewrite Hget. apply lookup_lt_is_Some. rewrite Hwf. nia.
  - intros Hvec. rewrite Hget. unfold getitem. rewrite Hvec.
    unfold ravel_index. simpl. rewrite decide_True by nia. done.
Qed.

Lemma reshape_row_major_witness :
  wf (jnp.arange 12) ∧ 3 * 4 = size (jnp.arange 12) ∧
  ∃ X, reshape (jnp.arange 12) [Z.of_nat 3; Z.of_nat 4] = Ok X ∧
       shape X = [3; 4] ∧ size X = size (jnp.arange 12) ∧
       length (data X) = size (jnp.arange 12) ∧
       data X = data (jnp.arange 12) ∧
       ∀ i j, i < 3 → j < 4 →
         is_Some (getitem X [i; j]) ∧
         getitem X [i; j] = data (jnp.arange 12) !! (i * 4 + j) ∧
         (shape (jnp.arange 12) = [size (jnp.arange 12)] →
          getitem X [i; j] = getitem (jnp.arange 12) [i * 4 + j]).
Proof.
  split; [reflexivity|]. split; [reflexivity|].
  apply (reshape_row_major (jnp.arange 12) 3 4); reflexivity.
Defined.



(** ** Broadcasting *)

Lemma length_bind_const {A B} (g : A → list B) (l : list A) (c : nat) :
  (∀ x, x ∈ l → length (g x) = c) → length (l ≫= g) = length l * c.
Proof.
  induction l as [|x l IH]; intros Hg; [done|].
  rewrite bind_cons, length_app, IH, Hg; [simpl; lia|left|].
  intros y Hy. apply Hg. by right.
Qed.

Lemma zip_with_bind {A B C D} (f : A → B → C) (g1 : D → list A)
    (g2 : D → list B) (l : list D) :
  (∀ x, x ∈ l → length (g1 x) = length (g2 x)) →
  zip_with f (l ≫= g1) (l ≫= g2) = l ≫= λ x, zip_with f (g1 x) (g2 x).
Proof.
  induction l as [|x l IH]; intros Hg; [done|].
  rewrite !bind_cons, zip_with_app by (apply Hg; left).
  rewrite IH; [done|]. intros y Hy. apply Hg. by right.
Qed.

Lemma join_replicate_bind {A} (n j : nat) (l : list A) :
  mjoin (replicate n l) = seq j n ≫= λ _, l.
Proof.
  revert j. induction n as [|n IH]; intros j; [done|].
  simpl. by rewrite (IH (S j)).
Qed.

Lemma length_block {A} (blk k : nat) (buf : list A) :
  (k + 1) * blk ≤ length buf → length (block blk k buf) = blk.
Proof. intros Hk. unfold block. rewrite length_take, length_drop. lia. Qed.

Lemma block_all {A} (blk : nat) (buf : list A) :
  length buf = blk → block blk 0 buf = buf.
Proof. intros <-. unfold block. simpl. apply firstn_all. Qed.

Lemma prod_pad_shape k s : prod (pad_shape k s) = prod s.
Proof.
  unfold pad_shape. rewrite prod_app.
  induction (k - length s) as [|n IH]; simpl in *; lia.
Qed.

Lemma broadcast_dim_Ok d e r :
  broadcast_dim d e = Ok r → (d = r ∨ d = 1) ∧ (e = r ∨ e = 1).
Proof.
  unfold broadcast_dim. repeat case_decide; intros [= <-]; auto.
Qed.

Lemma broadcast_aligned_expandable sa sb s :
  broadcast_aligned sa sb = Ok s → expandable sa s ∧ expandable sb s.
Proof.
  revert sb s. induction sa as [|d sa IH]; intros [|e sb] s; simpl;
    try done.
  { intros [= <-]. split; constructor. }
  destruct (broadcast_dim d e) as [r|] eqn:Hr; simpl; [|done].
  destruct (broadcast_aligned sa sb) as [s'|] eqn:Hs; simpl; [|done].
  intros [= <-]. apply broadcast_dim_Ok in Hr as [Hd He].
  destruct (IH _ _ Hs). split; by constructor.
Qed.

Lemma pin_lt d r k : d = r ∨ d = 1 → k < r → pin d k < d.
Proof. unfold pin. intros [-> | ->] Hk; case_decide; lia. Qed.

Lemma length_expand {A} src tgt (buf : list A) :
  expandable src tgt → length buf = prod src →
  length (expand src tgt buf) = prod tgt.
Proof.
  intros Hex. revert buf.
  induction Hex as [|d e src tgt Hde Hex IH]; intros buf Hbuf; [done|].
  simpl in *. case_decide as Heq.
  - subst e. rewrite (length_bind_const _ _ (prod tgt)), length_seq; [done|].
    intros k Hk%elem_of_seq. apply IH, length_block. nia.
  - destruct Hde as [? | ->]; [done|].
    rewrite (join_replicate_bind _ 0).
    rewrite (length_bind_const _ _ (prod tgt)), length_seq; [done|].
    intros _ _. apply IH. lia.
Qed.

Lemma expand_cons {A} d r src tgt (buf : list A) :
  d = r ∨ d = 1 → length buf = d * prod src →
  expand (d :: src) (r :: tgt) buf =
    seq 0 r ≫= λ k, expand src tgt (block (prod src) (pin d k) buf).
Proof.
  intros Hd Hbuf. simpl. case_decide as Heq.
  - subst r. apply Forall_bind_ext, Forall_forall.
    intros k Hk%elem_of_seq. unfold pin. case_decide; [|done].
    by replace k with 0 by lia.
  - destruct Hd as [? | ->]; [done|].
    rewrite (join_replicate_bind _ 0). apply Forall_bind_ext, Forall_forall.
    intros k _. unfold pin. rewrite decide_True by done.
    rewrite block_all by lia. done.
Qed.

(** Reading both operands in place gives what the operation gives on the
    two expanded buffers. *)
Lemma bzip_expand {A B C} (f : A → B → C) sa sb s
    (da : list A) (db : list B) :
  broadcast_aligned sa sb = Ok s →
  length da = prod sa → length db = prod sb →
  bzip f sa sb s da db = zip_with f (expand sa s da) (expand sb s db).
Proof.
  revert sb s da db.
  induction sa as [|d sa IH]; intros [|e sb] s da db; simpl; try done.
  destruct (broadcast_dim d e) as [r|] eqn:Hr; simpl; [|done].
  destruct (broadcast_aligned sa sb) as [s'|] eqn:Hs; simpl; [|done].
  intros [= <-] Hda Hdb.
  apply broadcast_dim_Ok in Hr as [Hd He].
  destruct (broadcast_aligned_expandable _ _ _ Hs) as [Hxa Hxb].
  assert (∀ k, k < r →
    length (block (prod sa) (pin d k) da) = prod sa ∧
    length (block (prod sb) (pin e k) db) = prod sb) as Hblk.
  { intros k Hk. pose proof (pin_lt d r k Hd Hk).
    pose proof (pin_lt e r k He Hk). split; apply length_block; nia. }
  pose proof (expand_cons d r sa s' da Hd Hda) as Hea.
  pose proof (expand_cons e r sb s' db He Hdb) as Heb.
  simpl in Hea, Heb. rewrite Hea, Heb. clear Hea Heb.
  rewrite zip_with_bind.
  - apply Forall_bind_ext, Forall_forall. intros k Hk%elem_of_seq.
    destruct (Hblk k) as [? ?]; [lia|]. by apply IH.
  - intros k Hk%elem_of_seq. destruct (Hblk k) as [? ?]; [lia|].
    by rewrite !length_expand.
Qed.

Lemma length_broadcast_aligned sa sb s :
  broadcast_aligned sa sb = Ok s → length s = length sa.
Proof.
  intros [H _]%broadcast_aligned_expandable.
  symmetry. by eapply Forall2_length.
Qed.

Lemma length_pad_shape k s : length s ≤ k → length (pad_shape k s) = k.
Proof.
  intros Hk. unfold pad_shape. rewrite length_app, length_replicate. lia.
Qed.

(** C4: broadcasting.  When the shapes of a and b are compatible, the
    elementwise operation on them is the operation applied after padding
    the shapes with leading 1s and replicating along the axes of extent
    1; for a of shape (3, 1) and b of shape (1, 2), a + b has shape
    (3, 2) and (a + b)[i, j] = a[i, 0] + b[0, j]. *)
Theorem binop_broadcast {A B C} (f : A → B → C) (a : ndarray A)
    (b : ndarray B) (s : list nat) :
  wf a → wf b → broadcast_shapes (shape a) (shape b) = Ok s →
  binop f a b = Ok (elementwise f (broadcast_to a s) (broadcast_to b s)) ∧
  shape (broadcast_to a s) = s ∧ shape (broadcast_to b s) = s ∧
  wf (broadcast_to a s) ∧ wf (broadcast_to b s) ∧
  (∀ a' b' : ndarray Q,
     wf a' → wf b' → shape a' = [3; 1] → shape b' = [1; 2] →
     ∃ R, binop Qplus a' b' = Ok R ∧ shape R = [3; 2] ∧
          ∀ i j, i < 3 → j < 2 →
            ∃ x y, getitem a' [i; 0] = Some x ∧ getitem b' [0; j] = Some y ∧
                   getitem R [i; j] = Some (x + y)%Q).
Proof.
  intros Hwa Hwb Hs. unfold broadcast_shapes in Hs.
  set (k := length (shape a) `max` length (shape b)) in *.
  pose proof (length_broadcast_aligned _ _ _ Hs) as Hlen.
  rewrite length_pad_shape in Hlen by lia.
  destruct (broadcast_aligned_expandable _ _ _ Hs) as [Hxa Hxb].
  split_and!; try done.
  - unfold binop, broadcast_shapes. fold k. rewrite Hs. simpl.
    unfold elementwise, broadcast_to. simpl. rewrite Hlen. f_equal. f_equal.
    apply bzip_expand; [done|..]; by rewrite prod_pad_shape.
  - unfold wf, broadcast_to, size. simpl. rewrite Hlen.
    apply length_expand; [done|]. by rewrite prod_pad_shape.
  - unfold wf, broadcast_to, size. simpl. rewrite Hlen.
    apply length_expand; [done|]. by rewrite prod_pad_shape.
  - clear. intros [sa da] [sb db] Hwa Hwb Hsa Hsb. simpl in *. subst.
    unfold wf, size in *. simpl in *.
    destruct da as [|a0 [|a1 [|a2 [|]]]]; try done.
    destruct db as [|b0 [|b1 [|]]]; try done.
    eexists. split; [reflexivity|]. split; [done|].
    intros i j Hi Hj.
    destruct i as [|[|[|]]]; [| | |lia];
      (destruct j as [|[|]]; [| |lia]); eexists _, _; done.
Qed.

Lemma binop_broadcast_witness :
  let a := NDArray [3; 1] [0; 1; 2]%Q in
  let b := NDArray [1; 2] [0; 1]%Q in
  wf a ∧ wf b ∧ broadcast_shapes (shape a) (shape b) = Ok [3; 2] ∧
  binop Qplus a b =
    Ok (elementwise Qplus (broadcast_to a [3; 2]) (broadcast_to b [3; 2])).
Proof.
  intros a b.
  split; [reflexivity|]. split; [reflexivity|]. split; [reflexivity|].
  apply (binop_broadcast Qplus a b [3; 2]); reflexivity.
Defined.

(** ** Functional updates *)

Lemma adjust_bound_le len b : adjust_bound len b ≤ len.
Proof. unfold adjust_bound. lia. Qed.

Lemma slice_indices_le s len :
  (slice_indices s len).1 ≤ len ∧ (slice_indices s len).2 ≤ len.
Proof.
  destruct s as [[lo|] [hi|]]; simpl; auto using adjust_bound_le with lia.
Qed.

(** One row of a slice update, seen from position (k, l) of a matrix of
    [n] columns. *)
Lemma lookup_row_update {A} (buf : list A) m n a lc hc v k l :
  length buf = m * n → lc ≤ n → hc ≤ n → k < m → l < n →
  list_inserts ((a * n + lc) * 1) (replicate ((hc - lc) * 1) v) buf
    !! (k * n + l) =
  if decide (k = a ∧ lc ≤ l < hc) then Some v else buf !! (k * n + l).
Proof.
  intros Hlen Hlc Hhc Hk Hl. rewrite !Nat.mul_1_r.
  case_decide as Hin.
  - destruct Hin as [-> Hin]. rewrite list_lookup_inserts.
    + apply lookup_replicate_2. lia.
    + rewrite length_replicate. lia.
    + rewrite Hlen. nia.
  - destruct (decide (k * n + l < a * n + lc)).
    + by apply list_lookup_inserts_lt.
    + apply list_lookup_inserts_ge. rewrite length_replicate.
      destruct (decide (k = a)) as [->|Hne]; [lia|].
      destruct (decide (k < a)); nia.
Qed.

Lemma lookup_rows_update {A} (rows : list nat) (buf : list A)
    m n lc hc v k l :
  length buf = m * n → lc ≤ n → hc ≤ n → k < m → l < n →
  foldl (λ buf a,
    list_inserts ((a * n + lc) * 1) (replicate ((hc - lc) * 1) v) buf)
    buf rows !! (k * n + l) =
  if decide (k ∈ rows ∧ lc ≤ l < hc) then Some v else buf !! (k * n + l).
Proof.
  intros Hlen Hlc Hhc Hk Hl. revert buf Hlen.
  induction rows as [|a rows IH]; intros buf Hlen.
  { rewrite decide_False; [done|]. intros [H _]. by inversion H. }
  simpl. rewrite IH by (by rewrite length_inserts).
  rewrite (lookup_row_update _ m) by done.
  destruct (decide (k ∈ rows ∧ lc ≤ l < hc)) as [[Hr Hc]|Hn].
  - rewrite (decide_True (P := k ∈ a :: _ ∧ _)); [done|].
    split; [by right|done].
  - destruct (decide (k = a ∧ lc ≤ l < hc)) as [[-> Hc]|Hn'].
    + rewrite decide_True; [done|]. split; [left|done].
    + rewrite decide_False; [done|]. intros [Hr Hc].
      apply elem_of_cons in Hr as [->|Hr]; [by apply Hn'|by apply Hn].
Qed.

Lemma getitem_at_set_slice2 {A} (X : ndarray A) m n rs cs v :
  shape X = [m; n] → wf X →
  ∃ Y, at_set_slice2 X rs cs v = Ok Y ∧ shape Y = shape X ∧
       ∀ k l, k < m → l < n →
         getitem Y [k; l] =
           if decide ((slice_indices rs m).1 ≤ k < (slice_indices rs m).2 ∧
                      (slice_indices cs n).1 ≤ l < (slice_indices cs n).2)
           then Some v else getitem X [k; l].
Proof.
  intros HX Hwf. unfold at_set_slice2. rewrite HX.
  pose proof (slice_indices_le cs n) as [Hlc Hhc].
  destruct (slice_indices rs m) as [lr hr], (slice_indices cs n) as [lc hc].
  simpl in *. eexists. split; [done|]. split; [done|].
  intros k l Hk Hl. unfold getitem. simpl. rewrite HX.
  rewrite ravel_index_2 by done. simpl.
  rewrite (lookup_rows_update _ _ m) by
    (try done; unfold wf, size in Hwf; rewrite Hwf, HX; simpl; lia).
  destruct (decide (lr ≤ k < hr ∧ lc ≤ l < hc)) as [[Hr Hc]|Hn].
  - rewrite decide_True; [done|]. split; [apply elem_of_seq; lia|done].
  - rewrite decide_False; [done|]. intros [Hr%elem_of_seq Hc].
    apply Hn. split; [lia|done].
Qed.

Lemma lookup_alloc {A} (σ : store A) (Y : ndarray A) :
  (alloc Y σ).2 !! (alloc Y σ).1 = Some Y ∧
  ∀ r Z, σ !! r = Some Z →
    (alloc Y σ).2 !! r = Some Z ∧ (alloc Y σ).1 ≠ r.
Proof.
  unfold alloc. cbn [fst snd]. split.
  - rewrite lookup_app_r by done. by rewrite Nat.sub_diag.
  - intros r Z HZ. split; [by apply lookup_app_l_Some|].
    apply lookup_lt_Some in HZ. lia.
Qed.

(** C9: the functional update has a frame and leaves its operand alone.
    X.at[idx].set(v) at an in-bounds index yields a new array Y with
    Y[idx] = v and Y equal to X everywhere else, and X is unchanged; a
    slice update X.at[rs, cs].set(v) likewise changes no position
    outside the slice and leaves X unchanged; on the notebook's matrix,
    X.at[1, 2].set(17) and then .at[:2, :].set(12) give the printed
    arrays while X keeps its elements. *)
Theorem at_set_frame {A} (σ : store A) (r : nat) (X : ndarray A)
    (idx : list nat) (v : A) :
  σ !! r = Some X → wf X → is_Some (ravel_index (shape X) idx) →
  (∃ r' Y, eval_at_set r idx v σ = Some (r', σ ++ [Y]) ∧ r' ≠ r ∧
      (σ ++ [Y]) !! r' = Some Y ∧ shape Y = shape X ∧
      getitem Y idx = Some v ∧
      (∀ idx', idx' ≠ idx → getitem Y idx' = getitem X idx') ∧
      (σ ++ [Y]) !! r = Some X ∧
      (∀ r0 Z, σ !! r0 = Some Z → (σ ++ [Y]) !! r0 = Some Z)) ∧
  (∀ m n rs cs, shape X = [m; n] →
    ∃ r' Y, eval_at_set_slice2 r rs cs v σ = Some (Ok (r', σ ++ [Y])) ∧
      r' ≠ r ∧ (σ ++ [Y]) !! r' = Some Y ∧ shape Y = shape X ∧
      (∀ k l, k < m → l < n →
         getitem Y [k; l] =
           if decide ((slice_indices rs m).1 ≤ k < (slice_indices rs m).2 ∧
                      (slice_indices cs n).1 ≤ l < (slice_indices cs n).2)
           then Some v else getitem X [k; l]) ∧
      (σ ++ [Y]) !! r = Some X ∧
      (∀ r0 Z, σ !! r0 = Some Z → (σ ++ [Y]) !! r0 = Some Z)) ∧
  (let X_new_1 :=
     NDArray [3; 4] [0; 1; 2; 3; 4; 5; 17; 7; 8; 9; 10; 11]%Z in
   let X_new_2 :=
     NDArray [3; 4] [12; 12; 12; 12; 12; 12; 12; 12; 8; 9; 10; 11]%Z in
   eval_at_set 0 [1; 2] 17%Z [X34] = Some (1, [X34; X_new_1]) ∧
   eval_at_set_slice2 1 (None, Some 2%Z) (None, None) 12%Z [X34; X_new_1]
     = Some (Ok (2, [X34; X_new_1; X_new_2]))).
Proof.
  intros Hr Hwf Hidx. split_and!; [| |done].
  - destruct (lookup_alloc σ (at_set X idx v)) as [Hnew Hold].
    exists (length σ), (at_set X idx v). unfold eval_at_set. rewrite Hr.
    split_and!; try done.
    + by apply (Hold r X).
    + apply shape_at_set.
    + by apply getitem_at_set_eq.
    + intros idx' Hne. by apply getitem_at_set_ne.
    + by apply (Hold r X).
    + intros r0 Z HZ. by apply (Hold r0 Z).
  - intros m n rs cs HX.
    destruct (getitem_at_set_slice2 X m n rs cs v HX Hwf)
      as (Y & HY & HYs & Hget).
    destruct (lookup_alloc σ Y) as [Hnew Hold].
    exists (length σ), Y. unfold eval_at_set_slice2. rewrite Hr. simpl.
    rewrite HY. split_and!; try done.
    + by apply (Hold r X).
    + by apply (Hold r X).
    + intros r0 Z HZ. by apply (Hold r0 Z).
Qed.

Lemma at_set_frame_witness :
  [X34] !! 0 = Some X34 ∧ wf X34 ∧
  is_Some (ravel_index (shape X34) [1; 2]) ∧
  ∃ r' Y, eval_at_set 0 [1; 2] 17%Z [X34] = Some (r', [X34] ++ [Y]) ∧
    r' ≠ 0 ∧ ([X34] ++ [Y]) !! r' = Some Y ∧ shape Y = shape X34 ∧
    getitem Y [1; 2] = Some 17%Z ∧
    (∀ idx', idx' ≠ [1; 2] → getitem Y idx' = getitem X34 idx') ∧
    ([X34] ++ [Y]) !! 0 = Some X34 ∧
    (∀ r0 Z, [X34] !! r0 = Some Z → ([X34] ++ [Y]) !! r0 = Some Z).
Proof.
  split; [reflexivity|]. split; [reflexivity|].
  split; [eexists; reflexivity|].
  apply (at_set_frame [X34] 0 X34 [1; 2] 17%Z);
    [reflexivity|reflexivity|eexists; reflexivity].
Defined.

(** ** Initialisers *)

(** What [MyInit._init_weight] leaves in [data], by position. *)
Lemma MyInit_data (ω : tape) name (arr : ndarray Q) (σ : world) :
  data (MyInit._init_weight ω name arr σ).1 =
    (λ k, let u := (-10 + (10 - -10) * ω (drawn σ + k)%nat)%Q in
          (u * np.of_bool (Qle_bool 5 (Qabs u)))%Q)
      <$> seq 0 (size arr).
Proof.
  unfold MyInit._init_weight, np.random_uniform, np.imul_mask, np.abs_ge,
    np.assign_all. simpl.
  rewrite zip_with_fmap_r, zip_with_diag, <- list_fmap_compose. done.
Qed.

Lemma uniform_draw_range (ω : tape) k :
  unit_draws ω → (-10 <= -10 + (10 - -10) * ω k < 10)%Q.
Proof. intros Hω. destruct (Hω k). split; lra. Qed.

Lemma masked_range (u : Q) :
  (-10 <= u < 10)%Q →
  let x := (u * np.of_bool (Qle_bool 5 (Qabs u)))%Q in
  (x == 0 ∨ 5 <= Qabs x <= 10)%Q.
Proof.
  intros Hu x. subst x. unfold np.of_bool.
  destruct (Qle_bool 5 (Qabs u)) eqn:Hge.
  - right. apply Qle_bool_iff in Hge.
    assert (u * 1 == u)%Q as Hu1 by ring. setoid_rewrite Hu1.
    split; [done|]. apply Qabs_Qle_condition. split; lra.
  - left. ring.
Qed.

(** C6: the custom initialiser.  Whatever the shape of data,
    MyInit._init_weight leaves at every position the value
    u * [|u| >= 5], where u is the draw made for that position, uniform
    in [-10, 10); hence every element is 0 or has absolute value in
    [5, 10]. *)
Theorem MyInit_init_weight_spec (ω : tape) (name : string)
    (arr : ndarray Q) (σ : world) :
  unit_draws ω →
  let out := (MyInit._init_weight ω name arr σ).1 in
  let u :=
    (np.random_uniform ω (-10) 10 (shape arr)
       (World (drawn σ) (stdout σ ++ [(name, shape arr)]))).1 in
  shape out = shape arr ∧ wf out ∧
  (∀ k, k < size arr →
     ∃ uk, data u !! k = Some uk ∧
           uk = (-10 + (10 - -10) * ω (drawn σ + k)%nat)%Q ∧
           (-10 <= uk < 10)%Q ∧
           data out !! k =
             Some (uk * (if Qle_bool 5 (Qabs uk) then 1 else 0))%Q) ∧
  (∀ x, x ∈ data out → (x == 0 ∨ 5 <= Qabs x <= 10)%Q).
Proof.
  intros Hω out u. subst out.
  split; [done|]. split.
  { unfold wf. rewrite MyInit_data, length_fmap, length_seq. done. }
  split.
  - intros k Hk. eexists. split; [|split; [reflexivity|split]].
    + simpl. rewrite list_lookup_fmap, lookup_seq_lt by done. done.
    + by apply uniform_draw_range.
    + rewrite MyInit_data, list_lookup_fmap, lookup_seq_lt by done. done.
  - intros x. rewrite MyInit_data.
    intros (k & -> & _)%list_elem_of_fmap.
    by apply masked_range, uniform_draw_range.
Qed.

Lemma tape0_unit_draws : unit_draws tape0.
Proof.
  intros k. unfold tape0, Qle, Qlt. simpl. lia.
Defined.

Lemma MyInit_init_weight_spec_witness :
  unit_draws tape0 ∧
  ∀ x, x ∈ data (MyInit._init_weight tape0 "dense0_weight"
                   (np.zeros [8; 4]) (World 0 [])).1 →
    (x == 0 ∨ 5 <= Qabs x <= 10)%Q.
Proof.
  split; [exact tape0_unit_draws|].
  apply (MyInit_init_weight_spec tape0 "dense0_weight" (np.zeros [8; 4])
           (World 0 []) tape0_unit_draws).
Defined.

Lemma Param_initialize_Constant (ω : tape) (c : Q) (p : nn.Param)
    (σ : world) :
  nn.own_init p = None →
  nn.Param_initialize ω (init.Constant c) true p σ =
    (nn.mkParam (nn.name p) (nn.pshape p) None
       (Some (NDArray (nn.pshape p) (replicate (prod (nn.pshape p)) c))), σ).
Proof.
  intros Hown. unfold nn.Param_initialize. rewrite andb_false_r, Hown.
  simpl. unfold np.fill_all. simpl. by rewrite length_replicate.
Qed.

Lemma Dense_initialize_weight ω i force l σ :
  nn.weight (nn.Dense_initialize ω i force l σ).1 =
    (nn.Param_initialize ω i force (nn.weight l) σ).1.
Proof.
  unfold nn.Dense_initialize.
  destruct (nn.Param_initialize ω i force (nn.weight l) σ) as [w σ1].
  by destruct (nn.Param_initialize ω i force (nn.bias l) σ1).
Qed.

Lemma initialize_cons ω i force l net σ :
  (nn.initialize ω i force (l :: net) σ).1 =
    (nn.Dense_initialize ω i force l σ).1 ::
    (nn.initialize ω i force net (nn.Dense_initialize ω i force l σ).2).1.
Proof.
  simpl. destruct (nn.Dense_initialize ω i force l σ) as [l' σ1]. simpl.
  by destruct (nn.initialize ω i force net σ1).
Qed.

(** C5: the constant initialiser.  After
    net.initialize(init=init.Constant(c), force_reinit=True) every
    element of the weight of every layer is c, whatever the parameters
    held before; with c = 1 on the notebook's network the first row of
    the first weight is [1, 1, 1, 1]. *)
Theorem initialize_Constant (ω : tape) (net : list nn.Dense) (σ : world)
    (c : Q) :
  Forall (λ l, nn.own_init (nn.weight l) = None) net →
  let net' := (nn.initialize ω (init.Constant c) true net σ).1 in
  length net' = length net ∧
  (∀ l, l ∈ net' →
     ∃ arr, nn.pdata (nn.weight l) = Some arr ∧
            shape arr = nn.pshape (nn.weight l) ∧ wf arr ∧
            ∀ x, x ∈ data arr → x = c) ∧
  (∃ l arr,
     (nn.initialize tape0 (init.Constant 1) true net0 (World 0 [])).1 !! 0
       = Some l ∧
     nn.pdata (nn.weight l) = Some arr ∧
     take 4 (data arr) = [1; 1; 1; 1]%Q).
Proof.
  intros Hnet net'. subst net'. split_and!.
  - revert σ. induction Hnet as [|l net Hl Hnet IH]; intros σ; [done|].
    rewrite initialize_cons. simpl. by rewrite IH.
  - revert σ. induction Hnet as [|l net Hl Hnet IH]; intros σ l'.
    { by intros ?%elem_of_nil. }
    rewrite initialize_cons.
    intros [->|Hl']%elem_of_cons; [|by eapply IH].
    rewrite Dense_initialize_weight, Param_initialize_Constant by done.
    simpl. eexists. split_and!; [done|done|..].
    + unfold wf. simpl. apply length_replicate.
    + simpl. by intros x ?%elem_of_replicate_inv.
  - by eexists _, _.
Qed.

Lemma initialize_Constant_witness :
  Forall (λ l, nn.own_init (nn.weight l) = None) net0 ∧
  ∀ l, l ∈ (nn.initialize tape0 (init.Constant 1) true net0 (World 0 [])).1 →
    ∃ arr, nn.pdata (nn.weight l) = Some arr ∧
           shape arr = nn.pshape (nn.weight l) ∧ wf arr ∧
           ∀ x, x ∈ data arr → x = 1%Q.
Proof.
  assert (Forall (λ l, nn.own_init (nn.weight l) = None) net0) as H.
  { repeat constructor. }
  split; [exact H|].
  apply (initialize_Constant tape0 net0 (World 0 []) 1 H).
Defined.

(** ** Exceptions surface unchanged *)

Lemma zeros_negative (a b : Z) :
  (a < 0)%Z → jnp.zeros [a; b] = Raise NegativeDimension.
Proof.
  intros Ha. unfold jnp.zeros. simpl.
  destruct (Z.leb_spec 0 a); [lia|done].
Qed.

(** C7: no cell raises or catches.  On a matrix, an exception of the
    allocation jnp.zeros or of a reduction X[...].max() is the result of
    pool2d; pool2d raises nothing that one of these calls did not raise;
    a window more than one row taller than the matrix makes the
    allocation fail; and an elementwise operation on incompatible shapes
    hands on the library's exception. *)
Theorem pool2d_exceptions (X : ndarray Q) (m n : nat) (p_h p_w : Z)
    (mode : string) :
  shape X = [m; n] →
  let dims := [(Z.of_nat m - p_h + 1)%Z; (Z.of_nat n - p_w + 1)%Z] in
  (∀ e, jnp.zeros dims = Raise e → pool2d X (p_h, p_w) mode = Raise e) ∧
  (∀ Y h w i j W e,
     jnp.zeros dims = Ok Y → shape Y = [h; w] → i < h → j < w →
     window_at X p_h p_w i j = Ok W → jnp.max W = Raise e →
     pool2d X (p_h, p_w) "max" = Raise e) ∧
  (∀ e, pool2d X (p_h, p_w) mode = Raise e →
     jnp.zeros dims = Raise e ∨
     ∃ Y h w i j W,
       jnp.zeros dims = Ok Y ∧ shape Y = [h; w] ∧ i < h ∧ j < w ∧
       mode = "max" ∧ window_at X p_h p_w i j = Ok W ∧ jnp.max W = Raise e) ∧
  ((Z.of_nat m + 1 < p_h)%Z →
     pool2d X (p_h, p_w) mode = Raise NegativeDimension) ∧
  (∀ (a b : ndarray Q) e,
     broadcast_shapes (shape a) (shape b) = Raise e →
     binop Qplus a b = Raise e).
Proof.
  intros HX dims. split_and!.
  - intros e. by apply (pool2d_zeros_raises X m n).
  - intros Y h w i j W e. by apply (pool2d_max_raises X m n).
  - intros e. by apply (pool2d_raise_origin X m n).
  - intros Hp. apply (pool2d_zeros_raises X m n); [done|].
    apply zeros_negative. lia.
  - intros a b e Hs. unfold binop. by rewrite Hs.
Qed.

Lemma pool2d_exceptions_witness :
  shape X33 = [3; 3] ∧
  pool2d X33 (5, 2)%Z "max" = Raise NegativeDimension.
Proof.
  split; [reflexivity|].
  apply (pool2d_exceptions X33 3 3 5 2 "max"); [reflexivity|lia].
Defined.

(** A window exactly one row taller than the matrix raises nothing: the
    output has no rows and the loops do not run. *)
Remark pool2d_window_one_taller :
  pool2d X33 (4, 2)%Z "max" = Ok (NDArray [0; 2] []).
Proof. reflexivity. Qed.

(** A window without rows makes the first reduction fail. *)
Remark pool2d_empty_window :
  pool2d X33 (0, 2)%Z "max" = Raise ZeroSizeReduction.
Proof. reflexivity. Qed.

(** * Part III: further properties of the notebooks' code *)

(** ** [pool2d]: when it raises and what it returns *)

Lemma zeros_2_cases (a b : Z) :
  ((0 ≤ a)%Z ∧ (0 ≤ b)%Z ∧
   jnp.zeros [a; b] =
     Ok (NDArray [Z.to_nat a; Z.to_nat b]
           (replicate (prod [Z.to_nat a; Z.to_nat b]) 0%Q))) ∨
  (((a < 0)%Z ∨ (b < 0)%Z) ∧ jnp.zeros [a; b] = Raise NegativeDimension).
Proof.
  unfold jnp.zeros. simpl.
  destruct (Z.leb_spec 0 a), (Z.leb_spec 0 b); simpl; auto with lia.
Qed.

Lemma pool2d_body_Ok X p_h p_w mode i Y j Y' :
  pool2d_body X p_h p_w mode i Y j = Ok Y' →
  Y' = Y ∨ ∃ v, Y' = at_set Y [i; j] v.
Proof.
  unfold pool2d_body.
  destruct (String.eqb mode "max"); [|destruct (String.eqb mode "avg")].
  - destruct (window_at X p_h p_w i j) as [W|]; simpl; [|done].
    destruct (jnp.max W) as [v|]; simpl; [|done]. intros [= <-]. eauto.
  - destruct (window_at X p_h p_w i j) as [W|]; simpl; [|done].
    intros [= <-]. eauto.
  - intros [= <-]. auto.
Qed.

(** Whatever [pool2d] returns on a matrix has the inferred shape and a
    buffer of that size. *)
Lemma pool2d_Ok_shape X m n p_h p_w mode Y :
  shape X = [m; n] → pool2d X (p_h, p_w) mode = Ok Y →
  (p_h ≤ Z.of_nat m + 1)%Z ∧ (p_w ≤ Z.of_nat n + 1)%Z ∧
  shape Y = [Z.to_nat (Z.of_nat m - p_h + 1);
             Z.to_nat (Z.of_nat n - p_w + 1)] ∧ wf Y.
Proof.
  intros HX Hrun.
  destruct (zeros_2_cases (Z.of_nat m - p_h + 1) (Z.of_nat n - p_w + 1))
    as [(Ha & Hb & Hz)|[_ Hz]].
  2:{ rewrite (pool2d_zeros_raises X m n p_h p_w HX mode _ Hz) in Hrun.
      done. }
  split; [lia|]. split; [lia|].
  set (h := Z.to_nat _) in *. set (w := Z.to_nat (_ - p_w + 1)) in *.
  rewrite (pool2d_after_zeros X m n p_h p_w HX mode _ h w Hz) in Hrun
    by done.
  set (P := λ Y : ndarray Q, shape Y = [h; w] ∧ wf Y).
  assert (∀ i Y j Y', P Y →
    pool2d_body X p_h p_w mode i Y j = Ok Y' → P Y') as Hcell.
  { intros i Y1 j Y2 [Hs Hw] [->|[v ->]]%pool2d_body_Ok; [done|].
    split; [by rewrite shape_at_set|by apply wf_at_set]. }
  apply (for_each_inv P) in Hrun; [done| |].
  - intros Y1 i Y2 HY1 _. unfold shape_at. rewrite (proj1 HY1). simpl.
    apply (for_each_inv P); [|done]. intros Y3 j Y4 HY3 _. by apply Hcell.
  - split; [done|]. unfold wf. simpl. apply length_replicate.
Qed.

(** X1: [pool2d] raises the allocation's exception exactly when the
    window is more than one row taller or more than one column wider
    than the matrix, in every mode. *)
Theorem pool2d_negative_dimension (X : ndarray Q) (m n : nat) (p_h p_w : Z)
    (mode : string) :
  shape X = [m; n] →
  pool2d X (p_h, p_w) mode = Raise NegativeDimension ↔
  (Z.of_nat m + 1 < p_h)%Z ∨ (Z.of_nat n + 1 < p_w)%Z.
Proof.
  intros HX. split.
  - intros [Hz|(Y & h & w & i & j & W & _ & _ & _ & _ & _ & _ & HW)]
      %(pool2d_raise_origin X m n p_h p_w HX).
    + destruct (zeros_2_cases (Z.of_nat m - p_h + 1) (Z.of_nat n - p_w + 1))
        as [(_ & _ & Hz')|[Hneg _]]; [congruence|lia].
    + by apply max_Raise in HW.
  - intros Hp. apply (pool2d_zeros_raises X m n p_h p_w HX).
    destruct (zeros_2_cases (Z.of_nat m - p_h + 1) (Z.of_nat n - p_w + 1))
      as [(? & ? & _)|[_ Hz]]; [lia|done].
Qed.

Lemma pool2d_negative_dimension_witness :
  shape X33 = [3; 3] ∧
  (pool2d X33 (5, 2)%Z "avg" = Raise NegativeDimension ↔
   (Z.of_nat 3 + 1 < 5)%Z ∨ (Z.of_nat 3 + 1 < 2)%Z).
Proof.
  split; [reflexivity|].
  apply (pool2d_negative_dimension X33 3 3 5 2 "avg"). reflexivity.
Defined.

Lemma bind_nil_all {A B} (g : A → list B) (l : list A) :
  (∀ x, g x = []) → l ≫= g = [].
Proof. intros Hg. induction l as [|x l IH]; [done|]. by rewrite bind_cons, Hg, IH. Qed.

Lemma adjust_bound_0 len : adjust_bound len 0 = 0.
Proof. unfold adjust_bound. simpl. lia. Qed.

(** The window at (0, 0) has no elements when its height or its width
    is 0. *)
Lemma window_at_empty X m n p_h p_w :
  shape X = [m; n] → p_h = 0%Z ∨ p_w = 0%Z →
  ∃ W, window_at X p_h p_w 0 0 = Ok W ∧ data W = [].
Proof.
  intros HX Hp. unfold window_at, slice2, slice_indices. rewrite HX.
  simpl. rewrite !adjust_bound_0. eexists. split; [done|]. simpl.
  destruct Hp as [-> | ->]; simpl; rewrite ?adjust_bound_0; [done|].
  by apply bind_nil_all.
Qed.

(** X2: in mode 'max' a window without rows or without columns makes
    the first reduction fail, whenever the output has a position at
    all. *)
Theorem pool2d_max_empty_window (X : ndarray Q) (m n : nat) (p_h p_w : Z) :
  shape X = [m; n] →
  (p_h = 0 ∧ p_w ≤ Z.of_nat n)%Z ∨ (p_w = 0 ∧ p_h ≤ Z.of_nat m)%Z →
  pool2d X (p_h, p_w) "max" = Raise ZeroSizeReduction.
Proof.
  intros HX Hp.
  destruct (zeros_2_cases (Z.of_nat m - p_h + 1) (Z.of_nat n - p_w + 1))
    as [(Ha & Hb & Hz)|[? _]]; [|lia].
  destruct (window_at_empty X m n p_h p_w HX) as (W & HW & HWd); [lia|].
  eapply (pool2d_max_raises X m n p_h p_w HX _ _ _ 0 0 W);
    [exact Hz|done|lia|lia|done|].
  unfold jnp.max. by rewrite HWd.
Qed.

Lemma pool2d_max_empty_window_witness :
  shape X33 = [3; 3] ∧ pool2d X33 (0, 2)%Z "max" = Raise ZeroSizeReduction.
Proof.
  split; [reflexivity|].
  apply (pool2d_max_empty_window X33 3 3 0 2); [reflexivity|lia].
Defined.

(** X3: in every mode but 'max' no window makes a reduction fail: when
    the allocation succeeds, [pool2d] returns a well-formed matrix of
    the inferred shape. *)
Theorem pool2d_not_max_returns (X : ndarray Q) (m n : nat) (p_h p_w : Z)
    (mode : string) :
  shape X = [m; n] → mode ≠ "max" →
  (p_h ≤ Z.of_nat m + 1)%Z → (p_w ≤ Z.of_nat n + 1)%Z →
  ∃ Y, pool2d X (p_h, p_w) mode = Ok Y ∧
       shape Y = [Z.to_nat (Z.of_nat m - p_h + 1);
                  Z.to_nat (Z.of_nat n - p_w + 1)] ∧ wf Y.
Proof.
  intros HX Hmode Hh Hw.
  destruct (pool2d X (p_h, p_w) mode) as [Y|e] eqn:Hrun.
  - exists Y. split; [done|].
    by apply (pool2d_Ok_shape X m n p_h p_w mode Y HX) in Hrun as (_ & _ & ?).
  - apply (pool2d_raise_origin X m n p_h p_w HX) in Hrun
      as [Hz|(Y & h & w & i & j & W & _ & _ & _ & _ & ? & _)]; [|done].
    destruct (zeros_2_cases (Z.of_nat m - p_h + 1) (Z.of_nat n - p_w + 1))
      as [(_ & _ & Hz')|[? _]]; [congruence|lia].
Qed.

Lemma pool2d_not_max_returns_witness :
  shape X33 = [3; 3] ∧
  ∃ Y, pool2d X33 (0, -2)%Z "avg" = Ok Y ∧
       shape Y = [Z.to_nat (Z.of_nat 3 - 0 + 1);
                  Z.to_nat (Z.of_nat 3 - -2 + 1)] ∧ wf Y.
Proof.
  split; [reflexivity|].
  apply (pool2d_not_max_returns X33 3 3 0 (-2) "avg");
    [reflexivity|discriminate|lia|lia].
Defined.

(** X4: a window exactly one row taller or one column wider than the
    matrix raises nothing in any mode: the loops do not run and the
    result has no elements. *)
Theorem pool2d_no_positions (X : ndarray Q) (m n : nat) (p_h p_w : Z)
    (mode : string) :
  shape X = [m; n] →
  (p_h = Z.of_nat m + 1 ∧ p_w ≤ Z.of_nat n + 1)%Z ∨
  (p_w = Z.of_nat n + 1 ∧ p_h ≤ Z.of_nat m + 1)%Z →
  pool2d X (p_h, p_w) mode =
    Ok (NDArray [Z.to_nat (Z.of_nat m - p_h + 1);
                 Z.to_nat (Z.of_nat n - p_w + 1)] []).
Proof.
  intros HX Hp.
  set (h := Z.to_nat (Z.of_nat m - p_h + 1)).
  set (w := Z.to_nat (Z.of_nat n - p_w + 1)).
  assert (h = 0 ∨ w = 0) as Hhw by lia.
  rewrite (pool2d_run X m n p_h p_w mode h w (λ _ _ Y, Y));
    [|done|lia|lia| |done].
  - rewrite foldl_skip by (intros; by apply foldl_skip).
    do 2 f_equal. simpl. destruct Hhw as [-> | ->]; [done|].
    by rewrite Nat.mul_0_r.
  - intros i j Y Hi Hj. lia.
Qed.

Lemma pool2d_no_positions_witness :
  shape X33 = [3; 3] ∧
  pool2d X33 (4, 2)%Z "max" =
    Ok (NDArray [Z.to_nat (Z.of_nat 3 - 4 + 1);
                 Z.to_nat (Z.of_nat 3 - 2 + 1)] []).
Proof.
  split; [reflexivity|].
  apply (pool2d_no_positions X33 3 3 4 2 "max"); [reflexivity|lia].
Defined.

(** ** [pool2d]: special windows and order *)

Lemma pool2d_cells X m n p_h p_w mode h w (F : nat → nat → Q) :
  shape X = [m; n] →
  (Z.of_nat m - p_h + 1)%Z = Z.of_nat h →
  (Z.of_nat n - p_w + 1)%Z = Z.of_nat w →
  (∀ i j Y, i < h → j < w →
     pool2d_body X p_h p_w mode i Y j = Ok (at_set Y [i; j] (F i j))) →
  ∃ Y, pool2d X (p_h, p_w) mode = Ok Y ∧ shape Y = [h; w] ∧ wf Y ∧
       ∀ i j, i < h → j < w → getitem Y [i; j] = Some (F i j).
Proof.
  intros HX Hh Hw Hbody.
  set (Y0 := NDArray [h; w] (replicate (prod [h; w]) 0%Q)).
  assert (wf Y0) as HY0 by (unfold wf, Y0; simpl; apply length_replicate).
  exists (fill F (range h) (range w) Y0). split_and!.
  - by apply (pool2d_run X m n _ _ _ h w (λ i j Y, at_set Y [i; j] (F i j)));
      [..|intros; apply shape_at_set].
  - by rewrite shape_fill.
  - by apply wf_fill.
  - intros i j Hi Hj. rewrite getitem_fill; [|done|].
    + by rewrite decide_True by (unfold range; rewrite !elem_of_seq; lia).
    + intros i' j' Hi'%elem_of_seq Hj'%elem_of_seq. simpl.
      rewrite ravel_index_2 by lia. done.
Qed.

(** Two matrices of one shape are related element by element when they
    are related position by position. *)
Lemma matrix_Forall2 {A B} (R : A → B → Prop) (Y : ndarray A)
    (X : ndarray B) h w :
  shape Y = [h; w] → shape X = [h; w] → wf Y → wf X →
  (∀ i j y x, i < h → j < w →
     getitem Y [i; j] = Some y → getitem X [i; j] = Some x → R y x) →
  Forall2 R (data Y) (data X).
Proof.
  intros HY HX HwY HwX Hcell. unfold wf, size in HwY, HwX.
  rewrite HY in HwY. rewrite HX in HwX. simpl in HwY, HwX.
  apply Forall2_same_length_lookup_2; [lia|].
  intros k y x Hy Hx. pose proof (lookup_lt_Some _ _ _ Hy) as Hk.
  assert (w ≠ 0) as Hw0 by (intros ->; lia).
  pose proof (Nat.div_mod_eq k w) as Hdm.
  pose proof (Nat.mod_upper_bound k w Hw0) as Hj.
  assert (k `div` w < h) as Hi by (apply Nat.Div0.div_lt_upper_bound; lia).
  apply (Hcell (k `div` w) (k `mod` w)); try done.
  - unfold getitem. rewrite HY, ravel_index_2 by done. simpl.
    by replace (k `div` w * w + k `mod` w) with k by lia.
  - unfold getitem. rewrite HX, ravel_index_2 by done. simpl.
    by replace (k `div` w * w + k `mod` w) with k by lia.
Qed.

Lemma matrix_ext {A} (Y X : ndarray A) h w :
  shape Y = [h; w] → shape X = [h; w] → wf Y → wf X →
  (∀ i j, i < h → j < w → getitem Y [i; j] = getitem X [i; j]) → Y = X.
Proof.
  intros HY HX HwY HwX Hcell.
  assert (data Y = data X) as Hd.
  { apply list_eq_Forall2, (matrix_Forall2 eq Y X h w); try done.
    intros i j y x Hi Hj Hy Hx. rewrite Hcell in Hy by done. congruence. }
  destruct Y, X. simpl in *. congruence.
Qed.

Lemma join_blocks {A} (d blk : nat) (buf : list A) :
  length buf = d * blk → seq 0 d ≫= (λ k, block blk k buf) = buf.
Proof.
  revert buf. induction d as [|d IH]; intros buf Hlen.
  { by destruct buf. }
  simpl. rewrite <- fmap_S_seq, list_fmap_bind.
  transitivity (take blk buf ++ drop blk buf); [|apply take_drop].
  f_equal. rewrite <- (IH (drop blk buf)) by (rewrite length_drop; lia).
  apply Forall_bind_ext, Forall_forall. intros k _. unfold block. simpl.
  by rewrite drop_drop, (Nat.add_comm blk).
Qed.

Lemma window_data_full {A} (X : ndarray A) m n :
  shape X = [m; n] → wf X → window_data X n 0 0 m n = data X.
Proof.
  intros HX Hwf. unfold window_data.
  transitivity (seq 0 m ≫= λ k, block n k (data X)).
  - apply Forall_bind_ext, Forall_forall. intros a _. unfold block.
    by rewrite Nat.add_0_r.
  - apply join_blocks. unfold wf, size in Hwf. rewrite Hwf, HX. simpl. lia.
Qed.

Lemma max_cell_1 X m n i j :
  shape X = [m; n] → wf X → i < m → j < n →
  getitem X [i; j] = Some (max_cell X n 1 1 i j).
Proof.
  intros HX Hwf Hi Hj.
  destruct (pool2d_body_max X m n 1 1 i j X) as [_ [(a & b & Hab & Hy) _]];
    [done|done|lia..|].
  unfold in_window in Hab.
  by replace a with i in Hy by lia; replace b with j in Hy by lia.
Qed.

Lemma avg_cell_1 X m n i j x :
  shape X = [m; n] → wf X → i < m → j < n →
  getitem X [i; j] = Some x → (avg_cell X n 1 1 i j == x)%Q.
Proof.
  intros HX Hwf Hi Hj Hx.
  destruct (pool2d_body_avg X m n 1 1 i j X) as [_ ->]; [done|done|lia..|].
  unfold window_sum, get2. simpl. rewrite Hx. simpl. field.
Qed.

(** X5: pooling with a 1 x 1 window is the identity: in mode 'max' the
    result is X itself, in mode 'avg' it has the shape of X and equal
    elements. *)
Theorem pool2d_unit_window (X : ndarray Q) (m n : nat) :
  shape X = [m; n] → wf X →
  pool2d X (1, 1)%Z "max" = Ok X ∧
  ∃ Y, pool2d X (1, 1)%Z "avg" = Ok Y ∧ shape Y = shape X ∧
       Forall2 Qeq (data Y) (data X).
Proof.
  intros HX Hwf. split.
  - destruct (pool2d_cells X m n 1 1 "max" m n (max_cell X n 1 1))
      as (Y & -> & HY & HwY & Hcells); [done|lia|lia| |].
    { intros i j Y Hi Hj.
      apply (pool2d_body_max X m n 1 1); [done|done|lia..]. }
    f_equal. apply (matrix_ext Y X m n); try done.
    intros i j Hi Hj. rewrite Hcells by done. symmetry.
    by apply (max_cell_1 X m n).
  - destruct (pool2d_cells X m n 1 1 "avg" m n (avg_cell X n 1 1))
      as (Y & HrunY & HY & HwY & Hcells); [done|lia|lia| |].
    { intros i j Y Hi Hj.
      apply (pool2d_body_avg X m n 1 1); [done|done|lia..]. }
    exists Y. split; [done|]. split; [congruence|].
    apply (matrix_Forall2 Qeq Y X m n); try done.
    intros i j y x Hi Hj Hy Hx. rewrite Hcells in Hy by done.
    injection Hy as <-. by apply (avg_cell_1 X m n).
Qed.

Lemma pool2d_unit_window_witness :
  shape X33 = [3; 3] ∧ wf X33 ∧ pool2d X33 (1, 1)%Z "max" = Ok X33.
Proof.
  split; [reflexivity|]. split; [reflexivity|].
  apply (pool2d_unit_window X33 3 3); reflexivity.
Defined.

Lemma singleton_matrix {A} (Y : ndarray A) (v : A) :
  shape Y = [1; 1] → wf Y → getitem Y [0; 0] = Some v →
  Y = NDArray [1; 1] [v].
Proof.
  destruct Y as [s [|y [|]]]; unfold wf, size; simpl; intros -> Hlen;
    try done.
  unfold getitem. simpl. by intros [= ->].
Qed.

(** X6: pooling with a window as large as the matrix reduces the whole
    matrix: the result is the 1 x 1 matrix holding X.max() in mode
    'max' and X.mean() in mode 'avg'. *)
Theorem pool2d_global (X : ndarray Q) (m n : nat) :
  shape X = [m; n] → wf X → 1 ≤ m → 1 ≤ n →
  (∃ v, jnp.max X = Ok v ∧
        pool2d X (Z.of_nat m, Z.of_nat n) "max" = Ok (NDArray [1; 1] [v])) ∧
  pool2d X (Z.of_nat m, Z.of_nat n) "avg" =
    Ok (NDArray [1; 1] [jnp.mean X]).
Proof.
  intros HX Hwf Hm Hn.
  pose proof (window_data_full X m n HX Hwf) as Hfull. split.
  - destruct (pool2d_cells X m n (Z.of_nat m) (Z.of_nat n) "max" 1 1
                (max_cell X n m n))
      as (Y & -> & HY & HwY & Hcells); [done|lia|lia| |].
    { intros i j Y Hi Hj.
      apply (pool2d_body_max X m n m n); [done|done|lia..]. }
    exists (max_cell X n m n 0 0). split.
    + unfold jnp.max, max_cell. rewrite Hfull.
      pose proof (length_window_data X m n 0 0 m n HX Hwf) as Hlen.
      rewrite Hfull in Hlen. destruct (data X); [simpl in Hlen; nia|done].
    + f_equal. apply singleton_matrix; [done|done|]. apply Hcells; lia.
  - destruct (pool2d_cells X m n (Z.of_nat m) (Z.of_nat n) "avg" 1 1
                (avg_cell X n m n))
      as (Y & -> & HY & HwY & Hcells); [done|lia|lia| |].
    { intros i j Y Hi Hj.
      apply (pool2d_body_avg X m n m n); [done|done|lia..]. }
    f_equal. replace (jnp.mean X) with (avg_cell X n m n 0 0).
    + apply singleton_matrix; [done|done|]. apply Hcells; lia.
    + unfold avg_cell, jnp.mean. simpl. by rewrite Hfull.
Qed.

Lemma pool2d_global_witness :
  shape X33 = [3; 3] ∧ wf X33 ∧
  pool2d X33 (Z.of_nat 3, Z.of_nat 3) "avg" =
    Ok (NDArray [1; 1] [jnp.mean X33]).
Proof.
  split; [reflexivity|]. split; [reflexivity|].
  apply (pool2d_global X33 3 3); [reflexivity|reflexivity|lia|lia].
Defined.

Lemma foldl_Qmax_mono x x' xs xs' :
  (x <= x')%Q → Forall2 Qle xs xs' →
  (foldl Qmax x xs <= foldl Qmax x' xs')%Q.
Proof.
  intros Hx Hxs. revert x x' Hx.
  induction Hxs as [|y y' xs xs' Hy Hxs IH]; intros x x' Hx; [done|].
  simpl. apply IH. by apply Q.max_le_compat.
Qed.

Lemma sum_mono l l' : Forall2 Qle l l' → (jnp.sum l <= jnp.sum l')%Q.
Proof.
  induction 1 as [|x x' l l' Hx Hl IH]; simpl; [apply Qle_refl|].
  by apply Qplus_le_compat.
Qed.

Lemma window_data_mono (X X' : ndarray Q) n i j p_h p_w :
  Forall2 Qle (data X) (data X') →
  Forall2 Qle (window_data X n i j p_h p_w) (window_data X' n i j p_h p_w).
Proof.
  intros Hle. unfold window_data.
  apply Forall2_bind, Forall_Forall2_diag, Forall_forall. intros a _.
  by apply Forall2_take, Forall2_drop.
Qed.

Lemma max_cell_mono (X X' : ndarray Q) n p_h p_w i j :
  Forall2 Qle (data X) (data X') →
  (max_cell X n p_h p_w i j <= max_cell X' n p_h p_w i j)%Q.
Proof.
  intros Hle. unfold max_cell.
  destruct (window_data_mono X X' n i j p_h p_w Hle) as [|x x' l l' Hx Hl];
    [apply Qle_refl|by apply foldl_Qmax_mono].
Qed.

Lemma count_nonneg (k : nat) : (0 <= / inject_Z (Z.of_nat k))%Q.
Proof.
  apply Qinv_le_0_compat. rewrite <- (Zle_Qle 0). lia.
Qed.

Lemma avg_cell_mono (X X' : ndarray Q) n p_h p_w i j :
  Forall2 Qle (data X) (data X') →
  (avg_cell X n p_h p_w i j <= avg_cell X' n p_h p_w i j)%Q.
Proof.
  intros Hle. unfold avg_cell, jnp.mean. simpl.
  pose proof (window_data_mono X X' n i j p_h p_w Hle) as Hw.
  rewrite <- (Forall2_length _ _ _ Hw). unfold Qdiv.
  apply Qmult_le_compat_r; [by apply sum_mono|apply count_nonneg].
Qed.

(** X7: pooling is monotone in both modes: when every element of X is
    at most the element of X' at its position, the same holds for the
    two results. *)
Theorem pool2d_monotone (X X' : ndarray Q) (m n p_h p_w : nat)
    (mode : string) :
  shape X = [m; n] → shape X' = [m; n] → wf X → wf X' →
  1 ≤ p_h ≤ m → 1 ≤ p_w ≤ n → mode = "max" ∨ mode = "avg" →
  Forall2 Qle (data X) (data X') →
  ∃ Y Y', pool2d X (Z.of_nat p_h, Z.of_nat p_w) mode = Ok Y ∧
          pool2d X' (Z.of_nat p_h, Z.of_nat p_w) mode = Ok Y' ∧
          shape Y = shape Y' ∧ Forall2 Qle (data Y) (data Y').
Proof.
  intros HX HX' Hwf Hwf' Hh Hw Hmode Hle.
  set (F := λ X : ndarray Q,
    if String.eqb mode "max" then max_cell X n p_h p_w
    else avg_cell X n p_h p_w).
  assert (∀ X, shape X = [m; n] → wf X →
    ∃ Y, pool2d X (Z.of_nat p_h, Z.of_nat p_w) mode = Ok Y ∧
         shape Y = [m - p_h + 1; n - p_w + 1] ∧ wf Y ∧
         ∀ i j, i < m - p_h + 1 → j < n - p_w + 1 →
           getitem Y [i; j] = Some (F X i j)) as Hrun.
  { intros X0 HX0 Hwf0. apply (pool2d_fill X0 m n); [done|lia|lia|].
    intros i j Y Hi Hj. unfold F. destruct Hmode as [-> | ->]; simpl.
    - apply (pool2d_body_max X0 m n); [done|done|lia..].
    - by apply (pool2d_body_avg X0 m n). }
  destruct (Hrun X HX Hwf) as (Y & HY & HsY & HwY & HcY).
  destruct (Hrun X' HX' Hwf') as (Y' & HY' & HsY' & HwY' & HcY').
  exists Y, Y'. split_and!; [done|done|congruence|].
  apply (matrix_Forall2 Qle Y Y' (m - p_h + 1) (n - p_w + 1)); try done.
  intros i j y y' Hi Hj. rewrite HcY, HcY' by done.
  intros [= <-] [= <-]. unfold F.
  destruct (String.eqb mode "max");
    [by apply max_cell_mono|by apply avg_cell_mono].
Qed.

Lemma pool2d_monotone_witness :
  let X' := NDArray [3; 3] (inject_Z <$> [1; 1; 2; 3; 5; 5; 6; 8; 9]%Z) in
  Forall2 Qle (data X33) (data X') ∧
  ∃ Y Y', pool2d X33 (Z.of_nat 2, Z.of_nat 2) "max" = Ok Y ∧
          pool2d X' (Z.of_nat 2, Z.of_nat 2) "max" = Ok Y' ∧
          shape Y = shape Y' ∧ Forall2 Qle (data Y) (data Y').
Proof.
  intros X'.
  assert (Forall2 Qle (data X33) (data X')) as Hle.
  { repeat constructor; unfold Qle; simpl; lia. }
  split; [exact Hle|].
  apply (pool2d_monotone X33 X' 3 3 2 2 "max");
    [reflexivity|reflexivity|reflexivity|reflexivity|lia|lia| |exact Hle].
  left. reflexivity.
Defined.





(** ** Elementwise operations: equal shapes, scalars, symmetry *)

Lemma pad_shape_self k s : k ≤ length s → pad_shape k s = s.
Proof. intros Hk. unfold pad_shape. by replace (k - length s) with 0 by lia. Qed.

Lemma broadcast_dim_refl d : broadcast_dim d d = Ok d.
Proof. unfold broadcast_dim. by rewrite decide_True. Qed.

Lemma broadcast_aligned_refl s : broadcast_aligned s s = Ok s.
Proof.
  induction s as [|d s IH]; [done|]. simpl.
  by rewrite broadcast_dim_refl, IH.
Qed.

Lemma expand_id {A} s (buf : list A) :
  length buf = prod s → expand s s buf = buf.
Proof.
  revert buf. induction s as [|d s IH]; intros buf Hlen; [done|].
  simpl in *. rewrite decide_True by done.
  transitivity (seq 0 d ≫= λ k, block (prod s) k buf).
  - apply Forall_bind_ext, Forall_forall. intros k Hk%elem_of_seq.
    apply IH, length_block. nia.
  - by apply join_blocks.
Qed.

(** X9: on operands of one shape an elementwise operation, such as
    x + y or X == Y, pairs the elements position by position and keeps
    the shape. *)
Theorem binop_same_shape {A B C} (f : A → B → C) (a : ndarray A)
    (b : ndarray B) :
  wf a → wf b → shape a = shape b →
  binop f a b = Ok (NDArray (shape a) (zip_with f (data a) (data b))).
Proof.
  intros Ha Hb Hs. unfold binop, broadcast_shapes. rewrite <- Hs.
  rewrite Nat.max_id, pad_shape_self, broadcast_aligned_refl by done.
  simpl. do 2 f_equal.
  rewrite bzip_expand; [|apply broadcast_aligned_refl|done|].
  - rewrite !expand_id; [done| |done]. unfold wf, size in Hb. congruence.
  - unfold wf, size in Hb. congruence.
Qed.

Lemma binop_same_shape_witness :
  let x := NDArray [4] [1; 2; 4; 8]%Q in
  let y := NDArray [4] [2; 2; 2; 2]%Q in
  wf x ∧ wf y ∧ shape x = shape y ∧
  binop Qmult x y = Ok (NDArray (shape x) (zip_with Qmult (data x) (data y))).
Proof.
  intros x y. split; [reflexivity|]. split; [reflexivity|].
  split; [reflexivity|]. apply (binop_same_shape Qmult x y); reflexivity.
Defined.

Lemma broadcast_aligned_ones s :
  broadcast_aligned s (replicate (length s) 1) = Ok s.
Proof.
  induction s as [|d s IH]; [done|]. simpl. rewrite IH.
  unfold broadcast_dim. repeat case_decide; simpl; congruence.
Qed.

Lemma expand_ones {A} s (c : A) :
  expand (replicate (length s) 1) s [c] = replicate (prod s) c.
Proof.
  induction s as [|d s IH]; [done|]. simpl. case_decide as Hd.
  - subst d. simpl. rewrite app_nil_r, Nat.add_0_r.
    assert (prod (replicate (length s) 1) = 1) as ->.
    { clear. induction (length s); simpl; lia. }
    by rewrite block_all.
  - rewrite IH. clear. induction d as [|d IH]; [done|].
    simpl. by rewrite replicate_add, IH.
Qed.

Lemma prod_ones k : prod (replicate k 1) = 1.
Proof. induction k; simpl; lia. Qed.

(** X10: an operand without axes (a Python number, as in X + 1) is
    combined with every element of the other operand, whose shape the
    result keeps. *)
Theorem binop_scalar {A B C} (f : A → B → C) (a : ndarray A) (c : B) :
  wf a →
  binop f a (NDArray [] [c]) =
    Ok (NDArray (shape a) ((λ x, f x c) <$> data a)) ∧
  binop (λ y x, f x y) (NDArray [] [c]) a =
    Ok (NDArray (shape a) ((λ x, f x c) <$> data a)).
Proof.
  intros Ha.
  assert (pad_shape (length (shape a)) [] = replicate (length (shape a)) 1)
    as Hpad.
  { unfold pad_shape. simpl. by rewrite Nat.sub_0_r, app_nil_r. }
  split.
  - unfold binop, broadcast_shapes. simpl. rewrite Nat.max_0_r.
    rewrite pad_shape_self, Hpad, broadcast_aligned_ones by done. simpl.
    do 2 f_equal.
    rewrite bzip_expand;
      [|apply broadcast_aligned_ones|done|by rewrite prod_ones].
    rewrite expand_id, expand_ones by done.
    by apply zip_with_replicate_r_eq.
  - unfold binop, broadcast_shapes. simpl.
    rewrite Hpad, pad_shape_self by done.
    destruct (broadcast_aligned_expandable _ _ _
                (broadcast_aligned_ones (shape a))) as [Hxa Hxo].
    assert (broadcast_aligned (replicate (length (shape a)) 1) (shape a)
            = Ok (shape a)) as Hal.
    { clear. induction (shape a) as [|d s IH]; [done|]. simpl. rewrite IH.
      unfold broadcast_dim. repeat case_decide; simpl; congruence. }
    rewrite Hal. simpl. do 2 f_equal.
    rewrite bzip_expand; [|done|by rewrite prod_ones|done].
    rewrite expand_id, expand_ones by done.
    apply zip_with_replicate_l. unfold wf, size in Ha. lia.
Qed.

Lemma binop_scalar_witness :
  wf X33 ∧
  binop Qplus X33 (NDArray [] [1%Q]) =
    Ok (NDArray (shape X33) ((λ x, x + 1)%Q <$> data X33)).
Proof.
  split; [reflexivity|].
  apply (binop_scalar Qplus X33 1%Q). reflexivity.
Defined.

Lemma broadcast_dim_comm d e : broadcast_dim d e = broadcast_dim e d.
Proof. unfold broadcast_dim. repeat case_decide; congruence. Qed.

Lemma broadcast_aligned_comm s t :
  broadcast_aligned s t = broadcast_aligned t s.
Proof.
  revert t. induction s as [|d s IH]; intros [|e t]; simpl; try done.
  by rewrite broadcast_dim_comm, IH.
Qed.

Lemma bzip_flip {A B C} (f : A → B → C) sa sb s da db :
  bzip (λ y x, f x y) sb sa s db da = bzip f sa sb s da db.
Proof.
  revert sb s da db.
  induction sa as [|d sa IH]; intros [|e sb] [|r s] da db; simpl;
    try apply (zip_with_flip f).
  apply Forall_bind_ext, Forall_forall. intros k _. apply IH.
Qed.

Lemma bzip_ext {A B C} (f g : A → B → C) sa sb s da db :
  (∀ x y, f x y = g x y) →
  bzip f sa sb s da db = bzip g sa sb s da db.
Proof.
  intros Hfg. revert sb s da db.
  induction sa as [|d sa IH]; intros [|e sb] [|r s] da db; simpl;
    try by apply zip_with_ext.
  apply Forall_bind_ext, Forall_forall. intros k _. apply IH.
Qed.

Lemma Qplus_comm_eq (x y : Q) : Qplus x y = Qplus y x.
Proof. destruct x, y. unfold Qplus. simpl. f_equal; lia. Qed.

(** X11: the operands of an elementwise operation can be exchanged
    together with the arguments of the operation; for a commutative
    operation such as + on rationals, a + b and b + a are the same
    array, and they raise for the same shapes. *)
Theorem binop_comm {A B C} (f : A → B → C) (a : ndarray A) (b : ndarray B) :
  binop (λ y x, f x y) b a = binop f a b ∧
  (∀ a' b' : ndarray Q, binop Qplus b' a' = binop Qplus a' b').
Proof.
  assert (∀ A B C (f : A → B → C) (a : ndarray A) (b : ndarray B),
    binop (λ y x, f x y) b a = binop f a b) as Hflip.
  { clear. intros A B C f a b. unfold binop, broadcast_shapes.
    rewrite (Nat.max_comm (length (shape b))), broadcast_aligned_comm.
    destruct (broadcast_aligned _ _) as [s|]; simpl; [|done].
    by rewrite bzip_flip. }
  split; [apply Hflip|]. intros a' b'. rewrite <- (Hflip _ _ _ Qplus).
  unfold binop. destruct (broadcast_shapes _ _) as [s|]; simpl; [|done].
  do 2 f_equal. apply bzip_ext. intros x y. apply Qplus_comm_eq.
Qed.

(** ** Reshape: what it keeps and how it composes *)

Lemma filter_length_all {A} (P : A → Prop) `{!∀ x, Decision (P x)}
    (l : list A) :
  length (filter P l) = length l → filter P l = l.
Proof.
  induction l as [|x l IH]; [done|]. rewrite filter_cons.
  case_decide; simpl; intros Hlen.
  - f_equal. apply IH. lia.
  - pose proof (length_filter P l). lia.
Qed.

Lemma Zprod_nonneg (t : list Z) :
  ¬ Exists (λ d, (d < 0)%Z) t → (0 ≤ foldr Z.mul 1 t)%Z.
Proof.
  induction t as [|d t IH]; intros Hneg; simpl; [lia|].
  rewrite Exists_cons in Hneg. apply Z.mul_nonneg_nonneg; [lia|].
  apply IH. tauto.
Qed.

Lemma prod_infer (q : nat) (t : list Z) :
  ¬ Exists (λ d, (d < 0)%Z) (filter (λ d, d ≠ (-1)%Z) t) →
  prod ((λ d, if decide (d = (-1)%Z) then q else Z.to_nat d) <$> t) =
  q ^ (length t - length (filter (λ d, d ≠ (-1)%Z) t)) *
  Z.to_nat (foldr Z.mul 1%Z (filter (λ d, d ≠ (-1)%Z) t)).
Proof.
  induction t as [|d t IH]; intros Hneg; [done|].
  csimpl. rewrite filter_cons in *.
  pose proof (length_filter (λ d, d ≠ (-1)%Z) t) as Hle.
  destruct (decide (d = (-1)%Z)) as [->|Hd].
  - rewrite decide_False in * by (intros H; by apply H).
    rewrite IH by done.
    replace (S (length t) - length (filter (λ d, d ≠ (-1)%Z) t))
      with (S (length t - length (filter (λ d, d ≠ (-1)%Z) t))) by lia.
    simpl. lia.
  - rewrite decide_True in * by done. rewrite Exists_cons in Hneg.
    rewrite IH by tauto. simpl.
    rewrite Z2Nat.inj_mul; [lia|lia|apply Zprod_nonneg; tauto].
Qed.

Lemma reshape_Ok {A} (x X : ndarray A) (t : list Z) :
  reshape x t = Ok X → data X = data x ∧ size X = size x.
Proof.
  unfold reshape. set (others := filter (λ d, d ≠ (-1)%Z) t).
  case_decide as Hneg; [done|].
  pose proof (prod_infer (size x `div` Z.to_nat (foldr Z.mul 1%Z others)) t
                Hneg) as Hprod. fold others in Hprod.
  case_decide as Hlen.
  - case_decide as Hp; [|done]. intros [= <-]. split; [done|].
    unfold size at 1. simpl. rewrite <- Hp.
    pose proof (filter_length_all _ t Hlen) as Hall. fold others in Hall.
    rewrite Hall in *. clear Hprod Hall Hlen Hp.
    induction t as [|d t IH]; [done|]. csimpl. rewrite Exists_cons in Hneg.
    rewrite IH by tauto.
    rewrite Z2Nat.inj_mul; [lia|lia|apply Zprod_nonneg; tauto].
  - case_decide as Hone; [|done]. case_decide as Hp; [|done].
    intros [= <-]. split; [done|]. unfold size at 1. simpl.
    rewrite Hprod. replace (length t - length others) with 1 by lia.
    destruct Hp as [Hp0 Hmod]. apply Nat.Div0.div_exact in Hmod.
    rewrite Nat.pow_1_r. lia.
Qed.

(** X12: a reshape that succeeds keeps the buffer and the number of
    elements, so it keeps well-formedness; reshaping the result is
    reshaping the original array, and reshaping back to the original
    shape returns the original array. *)
Theorem reshape_compose {A} (x X : ndarray A) (t : list Z) :
  reshape x t = Ok X →
  data X = data x ∧ size X = size x ∧ (wf x → wf X) ∧
  (∀ t', reshape X t' = reshape x t') ∧
  reshape X (Z.of_nat <$> shape x) = Ok x.
Proof.
  intros [Hd Hs]%reshape_Ok.
  assert (∀ t', reshape X t' = reshape x t') as Hcomp.
  { intros t'. unfold reshape. by rewrite Hd, Hs. }
  split_and!; [done|done| |done|].
  - unfold wf. by rewrite Hd, Hs.
  - rewrite Hcomp, reshape_explicit by done. by destruct x.
Qed.

Lemma reshape_compose_witness :
  reshape (jnp.arange 12) [3; (-1)]%Z = Ok X34 ∧
  (∀ t', reshape X34 t' = reshape (jnp.arange 12) t') ∧
  reshape X34 (Z.of_nat <$> shape (jnp.arange 12)) = Ok (jnp.arange 12).
Proof.
  split; [reflexivity|].
  destruct (reshape_compose (jnp.arange 12) X34 [3; (-1)]%Z)
    as (_ & _ & _ & H1 & H2); [reflexivity|].
  exact (conj H1 H2).
Defined.

(** ** Concatenation *)

Lemma lookup_bind_const {A B} (g : A → list B) (l : list A) (c i j : nat)
    (x : A) :
  (∀ y, y ∈ l → length (g y) = c) → l !! i = Some x → j < c →
  (l ≫= g) !! (i * c + j) = g x !! j.
Proof.
  revert i. induction l as [|y l IH]; intros i Hg Hi Hj; [done|].
  rewrite bind_cons. destruct i as [|i]; simpl in *.
  - injection Hi as ->. apply lookup_app_l. rewrite Hg by left. done.
  - rewrite lookup_app_r by (rewrite Hg by left; lia).
    rewrite Hg by left. replace (c + i * c + j - c) with (i * c + j) by lia.
    apply IH; [|done..]. intros z Hz. apply Hg. by right.
Qed.

Lemma concatenate_Some {A} (a b c : ndarray A) (axis : nat) :
  concatenate a b axis = Some c →
  ∃ pre da db post,
    shape a = pre ++ da :: post ∧ shape b = pre ++ db :: post ∧
    length pre = axis ∧
    c = NDArray (pre ++ (da + db) :: post)
          (seq 0 (prod pre) ≫= λ o,
             block (da * prod post) o (data a) ++
             block (db * prod post) o (data b)).
Proof.
  unfold concatenate.
  destruct (drop axis (shape a)) as [|da post] eqn:Ha; [done|].
  destruct (drop axis (shape b)) as [|db post'] eqn:Hb; [done|].
  case_decide as Heq; [|done]. destruct Heq as [Hpre <-]. intros [= <-].
  exists (take axis (shape a)), da, db, post.
  split; [|split; [|split; [|done]]].
  - by rewrite <- Ha, take_drop.
  - by rewrite Hpre, <- Hb, take_drop.
  - apply length_take_le. apply (f_equal length) in Ha.
    rewrite length_drop in Ha. simpl in Ha. lia.
Qed.

Lemma concatenate_wf {A} (a b c : ndarray A) (axis : nat) :
  concatenate a b axis = Some c → wf a → wf b →
  wf c ∧ size c = size a + size b.
Proof.
  intros (pre & da & db & post & Ha & Hb & Hax & ->)%concatenate_Some
    Hwa Hwb.
  unfold wf, size in *. rewrite Ha in *. rewrite Hb in *. simpl.
  rewrite !prod_app in *. simpl in *. split.
  - rewrite (length_bind_const _ _ ((da + db) * prod post)), length_seq;
      [lia|].
    intros o Ho%elem_of_seq. rewrite length_app, !length_block; nia.
  - lia.
Qed.

(** X13: a concatenation that succeeds keeps the number of axes, adds
    the extents along the axis and the numbers of elements, and joins
    well-formed arrays into a well-formed array. *)
Theorem concatenate_size {A} (a b c : ndarray A) (axis : nat) :
  concatenate a b axis = Some c → wf a → wf b →
  wf c ∧ size c = size a + size b ∧
  length (shape c) = length (shape a) ∧
  ∃ da db, shape a !! axis = Some da ∧ shape b !! axis = Some db ∧
           shape c !! axis = Some (da + db).
Proof.
  intros Hc Hwa Hwb.
  destruct (concatenate_wf a b c axis Hc Hwa Hwb) as [Hwc Hsize].
  apply concatenate_Some in Hc
    as (pre & da & db & post & Ha & Hb & Hax & ->).
  split; [done|]. split; [done|]. simpl. rewrite Ha. split.
  - rewrite !length_app. done.
  - exists da, db. rewrite Hb, <- Hax.
    by rewrite !list_lookup_middle.
Qed.

Lemma concatenate_size_witness :
  let X := NDArray [1; 2; 2; 1] [0; 1; 2; 3]%Z in
  let X1 := NDArray [1; 2; 2; 1] [1; 2; 3; 4]%Z in
  let C := NDArray [1; 2; 2; 2] [0; 1; 1; 2; 2; 3; 3; 4]%Z in
  concatenate X X1 3 = Some C ∧ wf C ∧ size C = size X + size X1.
Proof.
  intros X X1 C. split; [reflexivity|].
  destruct (concatenate_size X X1 C 3) as (H1 & H2 & _);
    [reflexivity|reflexivity|reflexivity|].
  exact (conj H1 H2).
Defined.

Lemma concatenate_rows {A} (a b : ndarray A) m1 m2 n :
  shape a = [m1; n] → shape b = [m2; n] → wf a → wf b →
  concatenate a b 0 = Some (NDArray [m1 + m2; n] (data a ++ data b)).
Proof.
  intros Ha Hb Hwa Hwb. unfold concatenate. rewrite Ha, Hb. simpl.
  rewrite decide_True by done. simpl. rewrite app_nil_r.
  unfold wf, size in Hwa, Hwb. rewrite Ha in Hwa. rewrite Hb in Hwb.
  by rewrite !block_all.
Qed.

(** X14: joining two matrices of equal width along axis 0 stacks the
    rows of the second under the first: the buffers are appended, and
    (i, j) of the result is (i, j) of the first for the first rows and
    (i - m1, j) of the second below them. *)
Theorem concatenate_axis0 {A} (a b : ndarray A) (m1 m2 n : nat) :
  shape a = [m1; n] → shape b = [m2; n] → wf a → wf b →
  ∃ c, concatenate a b 0 = Some c ∧ shape c = [m1 + m2; n] ∧
       data c = data a ++ data b ∧
       ∀ i j, i < m1 + m2 → j < n →
         getitem c [i; j] =
           if decide (i < m1) then getitem a [i; j]
           else getitem b [i - m1; j].
Proof.
  intros Ha Hb Hwa Hwb. eexists.
  split; [by apply (concatenate_rows a b m1 m2 n)|].
  split; [done|]. split; [done|]. intros i j Hi Hj.
  unfold wf, size in Hwa, Hwb. rewrite Ha in Hwa. rewrite Hb in Hwb.
  simpl in Hwa, Hwb. unfold getitem. simpl. rewrite Ha, Hb.
  rewrite ravel_index_2 by done. simpl. case_decide as Him.
  - rewrite ravel_index_2 by done. simpl. apply lookup_app_l. nia.
  - rewrite ravel_index_2 by lia. simpl. rewrite lookup_app_r by nia.
    f_equal. nia.
Qed.

Lemma concatenate_axis0_witness :
  let Y := NDArray [3; 4] [2; 1; 4; 3; 1; 2; 3; 4; 4; 3; 2; 1]%Z in
  shape X34 = [3; 4] ∧ wf X34 ∧ wf Y ∧
  ∃ c, concatenate X34 Y 0 = Some c ∧ shape c = [3 + 3; 4] ∧
       data c = data X34 ++ data Y.
Proof.
  intros Y. split; [reflexivity|]. split; [reflexivity|].
  split; [reflexivity|].
  destruct (concatenate_axis0 X34 Y 3 3 4) as (c & H1 & H2 & H3 & _);
    [reflexivity..|].
  exists c. exact (conj H1 (conj H2 H3)).
Defined.

Lemma lookup_block {A} (blk k j : nat) (buf : list A) :
  j < blk → block blk k buf !! j = buf !! (k * blk + j).
Proof.
  intros Hj. unfold block. by rewrite lookup_take_lt, lookup_drop by done.
Qed.

(** X15: joining two matrices of equal height along axis 1 puts the
    columns of the second to the right of the first: (i, j) of the
    result is (i, j) of the first for the first columns and
    (i, j - n1) of the second after them. *)
Theorem concatenate_axis1 {A} (a b : ndarray A) (m n1 n2 : nat) :
  shape a = [m; n1] → shape b = [m; n2] → wf a → wf b →
  ∃ c, concatenate a b 1 = Some c ∧ shape c = [m; n1 + n2] ∧ wf c ∧
       ∀ i j, i < m → j < n1 + n2 →
         getitem c [i; j] =
           if decide (j < n1) then getitem a [i; j]
           else getitem b [i; j - n1].
Proof.
  intros Ha Hb Hwa Hwb.
  destruct (concatenate a b 1) as [c|] eqn:Hc.
  2:{ unfold concatenate in Hc. rewrite Ha, Hb in Hc. simpl in Hc.
      by rewrite decide_True in Hc. }
  exists c. split; [done|].
  destruct (concatenate_wf a b c 1 Hc Hwa Hwb) as [Hwc _].
  unfold concatenate in Hc. rewrite Ha, Hb in Hc. simpl in Hc.
  rewrite decide_True in Hc by done. injection Hc as <-.
  split; [done|]. split; [done|]. intros i j Hi Hj.
  unfold wf, size in Hwa, Hwb. rewrite Ha in Hwa. rewrite Hb in Hwb.
  simpl in Hwa, Hwb. unfold getitem. simpl. rewrite Ha, Hb.
  rewrite ravel_index_2 by done. simpl. rewrite !Nat.mul_1_r.
  assert (∀ o, o ∈ seq 0 m →
    length (block n1 o (data a) ++ block n2 o (data b)) = n1 + n2) as Hlen.
  { intros o Ho%elem_of_seq. rewrite length_app, !length_block; nia. }
  rewrite (lookup_bind_const _ _ (n1 + n2) i j i Hlen);
    [|apply lookup_seq; lia|done].
  case_decide as Hjn.
  - rewrite ravel_index_2 by done. simpl.
    rewrite lookup_app_l by (rewrite length_block; nia).
    by apply lookup_block.
  - rewrite ravel_index_2 by lia. simpl.
    rewrite lookup_app_r by (rewrite length_block; nia).
    rewrite length_block by nia. apply lookup_block. lia.
Qed.

Lemma concatenate_axis1_witness :
  let Y := NDArray [3; 4] [2; 1; 4; 3; 1; 2; 3; 4; 4; 3; 2; 1]%Z in
  shape X34 = [3; 4] ∧ wf X34 ∧ wf Y ∧
  ∃ c, concatenate X34 Y 1 = Some c ∧ shape c = [3; 4 + 4] ∧ wf c.
Proof.
  intros Y. split; [reflexivity|]. split; [reflexivity|].
  split; [reflexivity|].
  destruct (concatenate_axis1 X34 Y 3 4 4) as (c & H1 & H2 & H3 & _);
    [reflexivity..|].
  exists c. exact (conj H1 (conj H2 H3)).
Defined.

(** ** Row slices *)

Lemma slice2_rows {A} (X : ndarray A) m n (r : slice) :
  shape X = [m; n] →
  slice2 X r (None, None) =
    Ok (NDArray [(slice_indices r m).2 - (slice_indices r m).1; n]
          (seq (slice_indices r m).1
               ((slice_indices r m).2 - (slice_indices r m).1)
             ≫= λ a, block n a (data X))).
Proof.
  intros HX. unfold slice2. rewrite HX.
  destruct (slice_indices r m) as [lr hr]. simpl.
  rewrite Nat.sub_0_r. do 2 f_equal.
  apply Forall_bind_ext, Forall_forall. intros a _. unfold block.
  by rewrite !Nat.mul_1_r, Nat.add_0_r.
Qed.

Lemma length_rows {A} (buf : list A) m n lr k :
  length buf = m * n → lr + k ≤ m →
  length (seq lr k ≫= λ a, block n a buf) = k * n.
Proof.
  intros Hlen Hk. rewrite (length_bind_const _ _ n), length_seq; [done|].
  intros a Ha%elem_of_seq. apply length_block. nia.
Qed.

(** X16: for every integer k, negative or beyond the matrix included,
    the slices X[:k] and X[k:] split the rows of X: joined along axis 0
    they give X back. *)
Theorem slice_rows_partition {A} (X : ndarray A) (m n : nat) (k : Z) :
  shape X = [m; n] → wf X →
  ∃ T B, slice2 X (None, Some k) (None, None) = Ok T ∧
         slice2 X (Some k, None) (None, None) = Ok B ∧
         shape T = [adjust_bound m k; n] ∧
         shape B = [m - adjust_bound m k; n] ∧
         concatenate T B 0 = Some X.
Proof.
  intros HX Hwf. pose proof (adjust_bound_le m k) as Hc.
  set (c := adjust_bound m k) in *.
  rewrite !(slice2_rows X m n) by done. unfold slice_indices. simpl.
  fold c. rewrite Nat.sub_0_r. eexists _, _.
  split; [done|]. split; [done|]. split; [done|]. split; [done|].
  assert (length (data X) = m * n) as Hlen.
  { unfold wf, size in Hwf. rewrite Hwf, HX. simpl. lia. }
  rewrite (concatenate_rows _ _ c (m - c) n); [|done|done|..].
  - f_equal. destruct X as [s d]. simpl in *. subst s. f_equal; [f_equal; lia|].
    rewrite <- bind_app, <- seq_app.
    replace (c + (m - c)) with m by lia. by apply join_blocks.
  - unfold wf, size. simpl. rewrite (length_rows _ m) by (done || lia). lia.
  - unfold wf, size. simpl. rewrite (length_rows _ m) by (done || lia). lia.
Qed.

Lemma slice_rows_partition_witness :
  shape X34 = [3; 4] ∧ wf X34 ∧
  ∃ T B, slice2 X34 (None, Some (-1)%Z) (None, None) = Ok T ∧
         slice2 X34 (Some (-1)%Z, None) (None, None) = Ok B ∧
         shape T = [adjust_bound 3 (-1); 4] ∧
         shape B = [3 - adjust_bound 3 (-1); 4] ∧
         concatenate T B 0 = Some X34.
Proof.
  split; [reflexivity|]. split; [reflexivity|].
  apply (slice_rows_partition X34 3 4 (-1)); reflexivity.
Defined.

(** ** [net.initialize]: force_reinit, biases and the custom initialiser *)







Lemma Param_initialize_Zero ω i (p : nn.Param) σ :
  nn.own_init p = Some init.Zero →
  nn.Param_initialize ω i true p σ =
    (nn.mkParam (nn.name p) (nn.pshape p) (Some init.Zero)
       (Some (NDArray (nn.pshape p)
                (replicate (prod (nn.pshape p)) 0%Q))), σ).
Proof.
  intros Hown. unfold nn.Param_initialize. rewrite andb_false_r, Hown.
  simpl. unfold np.fill_all. simpl. by rewrite length_replicate.
Qed.

Lemma Dense_initialize_bias ω i force l σ :
  nn.bias (nn.Dense_initialize ω i force l σ).1 =
    (nn.Param_initialize ω i force (nn.bias l)
       (nn.Param_initialize ω i force (nn.weight l) σ).2).1.
Proof.
  unfold nn.Dense_initialize.
  destruct (nn.Param_initialize ω i force (nn.weight l) σ) as [w σ1].
  simpl. by destruct (nn.Param_initialize ω i force (nn.bias l) σ1).
Qed.

(** X19: whatever initialiser is passed to net.initialize, the biases
    of layers built by nn.Dense are cleared to zero: each is an array
    of its shape holding only 0. *)
Theorem initialize_bias_zero (ω : tape) (i : init.Initializer)
    (net : list nn.Dense) (σ : world) :
  Forall (λ l, nn.own_init (nn.bias l) = Some init.Zero) net →
  ∀ l, l ∈ (nn.initialize ω i true net σ).1 →
    ∃ arr, nn.pdata (nn.bias l) = Some arr ∧
           shape arr = nn.pshape (nn.bias l) ∧ wf arr ∧
           ∀ x, x ∈ data arr → x = 0%Q.
Proof.
  intros Hnet. revert σ.
  induction Hnet as [|l net Hl Hnet IH]; intros σ l'.
  { by intros ?%elem_of_nil. }
  rewrite initialize_cons.
  intros [->|Hl']%elem_of_cons; [|by eapply IH].
  rewrite Dense_initialize_bias, Param_initialize_Zero by done.
  simpl. eexists. split_and!; [done|done|..].
  - unfold wf. simpl. apply length_replicate.
  - simpl. by intros x ?%elem_of_replicate_inv.
Qed.

Lemma initialize_bias_zero_witness :
  Forall (λ l, nn.own_init (nn.bias l) = Some init.Zero) net0 ∧
  ∀ l, l ∈ (nn.initialize tape0 init.MyInit true net0 (World 0 [])).1 →
    ∃ arr, nn.pdata (nn.bias l) = Some arr ∧
           shape arr = nn.pshape (nn.bias l) ∧ wf arr ∧
           ∀ x, x ∈ data arr → x = 0%Q.
Proof.
  assert (Forall (λ l, nn.own_init (nn.bias l) = Some init.Zero) net0) as H.
  { repeat constructor. }
  split; [exact H|].
  apply (initialize_bias_zero tape0 init.MyInit net0 (World 0 []) H).
Defined.

Lemma Dense_initialize_MyInit_world ω l σ :
  plain_Dense l →
  (nn.Dense_initialize ω init.MyInit true l σ).2 =
    World (drawn σ + prod (nn.pshape (nn.weight l)))
          (stdout σ ++ [(nn.name (nn.weight l), nn.pshape (nn.weight l))]).
Proof.
  intros [Hw Hb]. unfold nn.Dense_initialize, nn.Param_initialize.
  rewrite !andb_false_r, Hw, Hb. done.
Qed.

(** X20: net.initialize(MyInit(), force_reinit=True) on layers built by
    nn.Dense calls MyInit._init_weight once per weight, in layer order,
    and never for a bias: it prints one line per weight with its name
    and shape, and draws one number per weight element. *)
Theorem initialize_MyInit_output (ω : tape) (net : list nn.Dense)
    (σ : world) :
  Forall plain_Dense net →
  let σ' := (nn.initialize ω init.MyInit true net σ).2 in
  stdout σ' =
    stdout σ ++
    ((λ l, (nn.name (nn.weight l), nn.pshape (nn.weight l))) <$> net) ∧
  drawn σ' =
    drawn σ + sum_list ((λ l, prod (nn.pshape (nn.weight l))) <$> net).
Proof.
  intros Hnet. revert σ.
  induction Hnet as [|l net Hl Hnet IH]; intros σ.
  { simpl. by rewrite app_nil_r, Nat.add_0_r. }
  cbn zeta.
  assert ((nn.initialize ω init.MyInit true (l :: net) σ).2 =
          (nn.initialize ω init.MyInit true net
             (nn.Dense_initialize ω init.MyInit true l σ).2).2) as ->.
  { simpl. destruct (nn.Dense_initialize ω init.MyInit true l σ). simpl.
    by destruct (nn.initialize ω init.MyInit true net _). }
  destruct (IH (nn.Dense_initialize ω init.MyInit true l σ).2) as [-> ->].
  rewrite Dense_initialize_MyInit_world by done. simpl.
  split; [by rewrite <- app_assoc|symmetry; apply Nat.add_assoc].
Qed.

Lemma initialize_MyInit_output_witness :
  Forall plain_Dense net0 ∧
  stdout (nn.initialize tape0 init.MyInit true net0 (World 0 [])).2 =
    [("dense0_weight", [8; 4]); ("dense1_weight", [1; 8])] ∧
  drawn (nn.initialize tape0 init.MyInit true net0 (World 0 [])).2 = 40.
Proof.
  assert (Forall plain_Dense net0) as H.
  { repeat constructor. }
  split; [exact H|].
  apply (initialize_MyInit_output tape0 net0 (World 0 []) H).
Defined.

(** ** The library's pooling operator *)

Lemma length_tab {B} (g : nat → list B) (n c : nat) :
  (∀ i, i < n → length (g i) = c) → length (seq 0 n ≫= g) = n * c.
Proof.
  intros Hg. rewrite (length_bind_const _ _ c), length_seq; [done|].
  intros i Hi%elem_of_seq. apply Hg. lia.
Qed.

Lemma lookup_tab {B} (g : nat → list B) (n c i j : nat) :
  (∀ i, i < n → length (g i) = c) → i < n → j < c →
  (seq 0 n ≫= g) !! (i * c + j) = g i !! j.
Proof.
  intros Hg Hi Hj. apply lookup_bind_const; [|by apply lookup_seq|done].
  intros k Hk%elem_of_seq. apply Hg. lia.
Qed.

Lemma ravel_index_4 B H W C b i j c :
  b < B → i < H → j < W → c < C →
  ravel_index [B; H; W; C] [b; i; j; c] =
    Some (((b * H + i) * W + j) * C + c).
Proof.
  intros. unfold ravel_index. simpl. by rewrite !decide_True by lia.
Qed.

Lemma pool_extent_bound len win stride i :
  0 < stride → i < pool_extent len win stride → i * stride + win ≤ len.
Proof.
  unfold pool_extent. intros Hs Hi. case_decide; [|lia].
  pose proof (Nat.Div0.mul_div_le (len - win) stride). nia.
Qed.

Lemma elem_of_option_list {B} (mx : option B) (x : B) :
  x ∈ option_list mx ↔ mx = Some x.
Proof.
  destruct mx as [y|]; simpl.
  - rewrite list_elem_of_singleton. naive_solver.
  - split; [by intros ?%elem_of_nil|done].
Qed.

Lemma elem_of_pool_window X H W C wh ww sh sw b i j c x :
  x ∈ pool_window X H W C wh ww sh sw b i j c ↔
  ∃ r q, r < wh ∧ q < ww ∧
    data X !! (((b * H + (i * sh + r)) * W + (j * sw + q)) * C + c) = Some x.
Proof.
  unfold pool_window. rewrite list_elem_of_bind. split.
  - intros (r & (q & Hx & Hq%elem_of_seq)%list_elem_of_bind & Hr%elem_of_seq).
    apply elem_of_option_list in Hx.
    exists (r - i * sh), (q - j * sw). split; [lia|]. split; [lia|].
    by replace (i * sh + (r - i * sh)) with r by lia;
       replace (j * sw + (q - j * sw)) with q by lia.
  - intros (r & q & Hr & Hq & Hx). exists (i * sh + r).
    split; [|apply elem_of_seq; lia].
    apply list_elem_of_bind. exists (j * sw + q).
    split; [by apply elem_of_option_list|apply elem_of_seq; lia].
Qed.

Lemma max_pool_Some X B H W C wh ww sh sw :
  shape X = [B; H; W; C] → 0 < wh → 0 < ww → 0 < sh → 0 < sw →
  max_pool X (wh, ww) (sh, sw) =
    Some (NDArray [B; pool_extent H wh sh; pool_extent W ww sw; C]
            (seq 0 B ≫= λ b, seq 0 (pool_extent H wh sh) ≫= λ i,
             seq 0 (pool_extent W ww sw) ≫= λ j, seq 0 C ≫= λ c,
               [reduce_max (pool_window X H W C wh ww sh sw b i j c)])).
Proof.
  intros HX ????. unfold max_pool. rewrite HX.
  by rewrite decide_True by done.
Qed.

Lemma lookup_tab4 {B} (G : nat → nat → nat → nat → B) n1 n2 n3 n4 b i j c :
  b < n1 → i < n2 → j < n3 → c < n4 →
  (seq 0 n1 ≫= λ b, seq 0 n2 ≫= λ i, seq 0 n3 ≫= λ j, seq 0 n4 ≫= λ c,
     [G b i j c]) !! (((b * n2 + i) * n3 + j) * n4 + c) = Some (G b i j c).
Proof.
  intros Hb Hi Hj Hc.
  assert (∀ b i j, length (seq 0 n4 ≫= λ c, [G b i j c]) = n4 * 1) as H4.
  { intros. by apply length_tab. }
  assert (∀ b i, length (seq 0 n3 ≫= λ j, seq 0 n4 ≫= λ c, [G b i j c])
                 = n3 * (n4 * 1)) as H3.
  { intros. apply length_tab. intros. apply H4. }
  assert (∀ b, length (seq 0 n2 ≫= λ i, seq 0 n3 ≫= λ j,
                       seq 0 n4 ≫= λ c, [G b i j c])
               = n2 * (n3 * (n4 * 1))) as H2.
  { intros. apply length_tab. intros. apply H3. }
  replace (((b * n2 + i) * n3 + j) * n4 + c)
    with (b * (n2 * (n3 * (n4 * 1))) + (i * (n3 * (n4 * 1)) +
          (j * (n4 * 1) + (c * 1 + 0)))) by lia.
  assert (c * 1 + 0 < n4 * 1) as B4 by lia.
  assert (j * (n4 * 1) + (c * 1 + 0) < n3 * (n4 * 1)) as B3.
  { apply Nat.lt_le_trans with ((j + 1) * (n4 * 1)); [lia|].
    apply Nat.mul_le_mono_r. lia. }
  assert (i * (n3 * (n4 * 1)) + (j * (n4 * 1) + (c * 1 + 0))
          < n2 * (n3 * (n4 * 1))) as B2.
  { apply Nat.lt_le_trans with ((i + 1) * (n3 * (n4 * 1))); [lia|].
    apply Nat.mul_le_mono_r. lia. }
  rewrite (lookup_tab _ n1 (n2 * (n3 * (n4 * 1)))) by auto.
  rewrite (lookup_tab _ n2 (n3 * (n4 * 1))) by auto.
  rewrite (lookup_tab _ n3 (n4 * 1)) by auto.
  rewrite (lookup_tab _ n4 1) by (auto; lia). done.
Qed.

(** X21: the library operator on an input of shape (B, H, W, C), with a
    positive window and positive strides and without padding, returns
    an array of shape (B, oh, ow, C), where oh and ow count the window
    positions, whose entry at (b, i, j, c) is the maximum of the input
    over rows i*sh .. i*sh+wh-1 and columns j*sw .. j*sw+ww-1 of image b
    and channel c. *)
Theorem max_pool_spec (X : ndarray Q) (B H W C wh ww sh sw : nat) :
  shape X = [B; H; W; C] → wf X →
  0 < wh → 0 < ww → 0 < sh → 0 < sw →
  ∃ Y, max_pool X (wh, ww) (sh, sw) = Some Y ∧
       shape Y = [B; pool_extent H wh sh; pool_extent W ww sw; C] ∧
       wf Y ∧
       ∀ b i j c,
         b < B → i < pool_extent H wh sh → j < pool_extent W ww sw →
         c < C →
         ∃ y, getitem Y [b; i; j; c] = Some y ∧
           (∃ r q, r < wh ∧ q < ww ∧
              getitem X [b; i * sh + r; j * sw + q; c] = Some y) ∧
           (∀ r q, r < wh → q < ww →
              ∃ x, getitem X [b; i * sh + r; j * sw + q; c] = Some x ∧
                   (x <= y)%Q).
Proof.
  intros HX Hwf Hwh Hww Hsh Hsw.
  rewrite (max_pool_Some X B H W C) by done. eexists.
  split; [done|]. split; [done|]. split.
  { unfold wf, size. simpl.
    repeat (apply length_tab; intros). done. }
  intros b i j c Hb Hi Hj Hc.
  pose proof (pool_extent_bound H wh sh i Hsh Hi) as HiH.
  pose proof (pool_extent_bound W ww sw j Hsw Hj) as HjW.
  assert (∀ r q, r < wh → q < ww →
    getitem X [b; i * sh + r; j * sw + q; c] =
      data X !! (((b * H + (i * sh + r)) * W + (j * sw + q)) * C + c) ∧
    is_Some (getitem X [b; i * sh + r; j * sw + q; c])) as Hget.
  { intros r q Hr Hq. split.
    - unfold getitem. by rewrite HX, ravel_index_4 by lia.
    - apply getitem_is_Some; [done|]. rewrite HX, ravel_index_4 by lia.
      done. }
  pose proof (elem_of_pool_window X H W C wh ww sh sw b i j c) as Helem.
  exists (reduce_max (pool_window X H W C wh ww sh sw b i j c)).
  split.
  { unfold getitem. simpl. rewrite ravel_index_4 by done. simpl.
    by apply lookup_tab4. }
  destruct (pool_window X H W C wh ww sh sw b i j c) as [|x xs] eqn:Hwin.
  { destruct (Hget 0 0 Hwh Hww) as [Heq [x Hx]].
    assert (x ∈ @nil Q) as Hnil; [|by apply elem_of_nil in Hnil].
    apply Helem. exists 0, 0. split; [done|]. split; [done|].
    by rewrite <- Heq. }
  simpl. split.
  - destruct (proj1 (Helem _) (foldl_Qmax_elem x xs)) as (r & q & Hr & Hq & Hy).
    exists r, q. split; [done|]. split; [done|].
    by rewrite (proj1 (Hget r q Hr Hq)).
  - intros r q Hr Hq. destruct (Hget r q Hr Hq) as [Heq [x' Hx']].
    exists x'. split; [done|]. apply foldl_Qmax_ge, Helem.
    exists r, q. split; [done|]. split; [done|]. by rewrite <- Heq.
Qed.

Lemma max_pool_spec_witness :
  shape X1441 = [1; 4; 4; 1] ∧ wf X1441 ∧
  ∃ Y, max_pool X1441 (3, 3) (3, 3) = Some Y ∧
       shape Y = [1; pool_extent 4 3 3; pool_extent 4 3 3; 1] ∧ wf Y.
Proof.
  split; [reflexivity|]. split; [reflexivity|].
  destruct (max_pool_spec X1441 1 4 4 1 3 3 3 3) as (Y & H1 & H2 & H3 & _);
    [reflexivity|reflexivity|lia..|].
  exists Y. exact (conj H1 (conj H2 H3)).
Defined.

Lemma take_drop_lookups {A} (l : list A) (p k : nat) :
  k + p ≤ length l →
  take p (drop k l) = seq k p ≫= λ q, option_list (l !! q).
Proof.
  revert k. induction p as [|p IH]; intros k Hk; [done|].
  destruct (lookup_lt_is_Some_2 l k) as [x Hx]; [lia|].
  rewrite (drop_S _ _ _ Hx). simpl. rewrite Hx. simpl. f_equal.
  apply IH. lia.
Qed.

Lemma pool_window_unit_stride (X X4 : ndarray Q) m n p_h p_w i j :
  shape X = [m; n] → wf X → data X4 = data X →
  i + p_h ≤ m → j + p_w ≤ n →
  pool_window X4 m n 1 p_h p_w 1 1 0 i j 0 = window_data X n i j p_h p_w.
Proof.
  intros HX Hwf Hd Hi Hj. unfold pool_window, window_data.
  unfold wf, size in Hwf. rewrite HX in Hwf. simpl in Hwf.
  rewrite Hd, !Nat.mul_1_r.
  apply Forall_bind_ext, Forall_forall. intros a Ha%elem_of_seq.
  rewrite take_drop_lookups by nia.
  rewrite <- (fmap_add_seq (a * n) j p_w), list_fmap_bind.
  apply Forall_bind_ext, Forall_forall. intros q _. simpl.
  f_equal. f_equal. lia.
Qed.

Lemma pool_extent_unit_stride len win :
  win ≤ len → pool_extent len win 1 = len - win + 1.
Proof.
  intros. unfold pool_extent. by rewrite decide_True, Nat.div_1_r by done.
Qed.

Lemma reshape_batch_channel {A} (X : ndarray A) m n :
  shape X = [m; n] →
  reshape X [1%Z; Z.of_nat m; Z.of_nat n; 1%Z] =
    Ok (NDArray [1; m; n; 1] (data X)).
Proof.
  intros HX. unfold reshape.
  rewrite !filter_cons_True, filter_nil by lia.
  rewrite decide_False.
  2:{ rewrite !Exists_cons, Exists_nil. lia. }
  rewrite decide_True by done.
  rewrite decide_True.
  2:{ unfold size. rewrite HX. simpl.
      replace (1 * (Z.of_nat m * (Z.of_nat n * (1 * 1))))%Z
        with (Z.of_nat (m * (n * 1))) by lia.
      apply Nat2Z.id. }
  csimpl. by rewrite !Nat2Z.id.
Qed.

(** X22: on a matrix given a batch and a channel axis of extent 1, the
    library operator with unit strides and a window that fits returns
    what the loop of [pool2d] in mode 'max' returns on the matrix, with
    the same two axes of extent 1 added. *)
Theorem pool2d_agrees_max_pool (X : ndarray Q) (m n p_h p_w : nat) :
  shape X = [m; n] → wf X → 0 < p_h ≤ m → 0 < p_w ≤ n →
  ∃ X4 Y,
    reshape X [1%Z; Z.of_nat m; Z.of_nat n; 1%Z] = Ok X4 ∧
    pool2d X (Z.of_nat p_h, Z.of_nat p_w) "max" = Ok Y ∧
    max_pool X4 (p_h, p_w) (1, 1) =
      Some (NDArray (1 :: shape Y ++ [1]) (data Y)).
Proof.
  intros HX Hwf [Hh0 Hh] [Hw0 Hw].
  destruct (pool2d_fill X m n p_h p_w "max" (max_cell X n p_h p_w))
    as (Y & HY & HsY & HwY & Hcell); [done..| |].
  { intros i j Y Hi Hj. by apply (pool2d_body_max X m n). }
  exists (NDArray [1; m; n; 1] (data X)), Y.
  split; [by apply reshape_batch_channel|]. split; [done|].
  rewrite (max_pool_Some _ 1 m n 1) by (done || lia).
  rewrite !pool_extent_unit_stride by done.
  rewrite HsY. simpl. f_equal. f_equal.
  set (h := m - p_h + 1) in *. set (w := n - p_w + 1) in *.
  set (X4 := NDArray [1; m; n; 1] (data X)).
  rewrite app_nil_r.
  set (G := λ i j : nat, reduce_max (pool_window X4 m n 1 p_h p_w 1 1 0 i j 0)).
  change (seq 0 h ≫= (λ i, seq 0 w ≫= λ j, [G i j] ++ []) = data Y).
  assert (∀ i, i < h → length (seq 0 w ≫= λ j, [G i j] ++ []) = w * 1) as Hrow.
  { intros. by apply length_tab. }
  enough (NDArray [h; w] (seq 0 h ≫= (λ i, seq 0 w ≫= λ j, [G i j] ++ [])) = Y)
    as <- by done.
  apply (matrix_ext _ _ h w); [done|done| |done|].
  { unfold wf, size. simpl. rewrite (length_tab _ h (w * 1)) by done. lia. }
  intros i j Hi Hj. rewrite Hcell by done.
  unfold getitem. simpl. rewrite ravel_index_2 by done. simpl.
  replace (i * w + j) with (i * (w * 1) + j) by lia.
  rewrite (lookup_tab _ h (w * 1)) by (done || lia).
  replace j with (j * 1 + 0) at 1 by lia.
  rewrite (lookup_tab _ w 1) by (done || lia). simpl. f_equal.
  unfold G, max_cell, reduce_max.
  by rewrite (pool_window_unit_stride X X4 m n) by (done || lia).
Qed.

Lemma pool2d_agrees_max_pool_witness :
  shape X33 = [3; 3] ∧ wf X33 ∧
  ∃ X4 Y,
    reshape X33 [1%Z; Z.of_nat 3; Z.of_nat 3; 1%Z] = Ok X4 ∧
    pool2d X33 (Z.of_nat 2, Z.of_nat 2) "max" = Ok Y ∧
    max_pool X4 (2, 2) (1, 1) =
      Some (NDArray (1 :: shape Y ++ [1]) (data Y)).
Proof.
  split; [reflexivity|]. split; [reflexivity|].
  apply (pool2d_agrees_max_pool X33 3 3 2 2); [reflexivity|reflexivity|lia|lia].
Defined.

(** ** Padding with zeros *)

Lemma ravel_from_acc s : ∀ idx acc,
  ravel_from acc s idx = (λ k, acc * prod s + k) <$> ravel_from 0 s idx.
Proof.
  induction s as [|d s IH]; intros [|i idx] acc; simpl; try done.
  { f_equal. lia. }
  case_decide; [|done].
  rewrite (IH idx (acc * d + i)), (IH idx i).
  rewrite <- option_fmap_compose. apply option_fmap_ext.
  intros k. simpl. lia.
Qed.

Lemma ravel_index_cons d s i idx :
  ravel_index (d :: s) (i :: idx) =
    if decide (i < d) then (λ k, i * prod s + k) <$> ravel_index s idx
    else None.
Proof.
  unfold ravel_index. simpl. case_decide; [|done].
  by rewrite ravel_from_acc.
Qed.

Lemma length_block_lt {A} (blk d k : nat) (buf : list A) :
  length buf = d * blk → k < d → length (block blk k buf) = blk.
Proof.
  intros Hlen Hk. unfold block. rewrite length_take, length_drop. nia.
Qed.

Lemma length_pad_data s : ∀ pads buf,
  length pads = length s → length buf = prod s →
  length (pad_data s pads buf) = prod (zip_with (λ e p, p.1 + e + p.2) s pads).
Proof.
  induction s as [|d s IH]; intros [|[bf af] pads] buf Hp Hb; simpl in *;
    try done.
  rewrite !length_app, !length_replicate.
  rewrite (length_tab _ d (prod (zip_with (λ e p, p.1 + e + p.2) s pads))).
  - lia.
  - intros k Hk. apply IH; [lia|]. by apply (length_block_lt _ d).
Qed.

Lemma pad_data_lookup s : ∀ pads buf idx k,
  length pads = length s → length buf = prod s →
  ravel_index (zip_with (λ e p, p.1 + e + p.2) s pads) idx = Some k →
  (Forall3 (λ d p i, p.1 ≤ i < p.1 + d) s pads idx →
     ∃ k', ravel_index s (zip_with (λ i p, i - p.1) idx pads) = Some k' ∧
           pad_data s pads buf !! k = buf !! k') ∧
  (¬ Forall3 (λ d p i, p.1 ≤ i < p.1 + d) s pads idx →
     pad_data s pads buf !! k = Some 0%Q).
Proof.
  induction s as [|d s IH]; intros [|[bf af] pads] buf [|i idx] k Hp Hb;
    simpl in *; try done.
  { intros [= <-]. split.
    - intros _. by exists 0.
    - intros []. constructor. }
  rewrite ravel_index_cons. case_decide as Hi; [|done].
  set (s' := zip_with (λ e p, p.1 + e + p.2) s pads).
  destruct (ravel_index s' idx) as [k0|] eqn:Hk0; [|done].
  simpl. intros [= <-].
  pose proof (ravel_index_lt _ _ _ Hk0) as Hk0lt.
  set (inner := prod s') in *.
  assert (∀ r, r < d →
    length (pad_data s pads (block (prod s) r buf)) = inner) as Hlen.
  { intros r Hr. apply length_pad_data; [lia|].
    by apply (length_block_lt _ d). }
  destruct (decide (i < bf)) as [Hlo|Hlo].
  { split.
    - intros H3. inversion H3; subst. simpl in *. lia.
    - intros _. rewrite lookup_app_l by (rewrite length_replicate; nia).
      apply lookup_replicate_2. nia. }
  destruct (decide (i < bf + d)) as [Hhi|Hhi].
  - assert (pad_data (d :: s) ((bf, af) :: pads) buf !! (i * inner + k0) =
            pad_data s pads (block (prod s) (i - bf) buf) !! k0) as Hmid.
    { simpl. fold s'. fold inner.
      rewrite lookup_app_r by (rewrite length_replicate; nia).
      rewrite length_replicate.
      rewrite lookup_app_l by (rewrite (length_tab _ d inner) by done; nia).
      replace (i * inner + k0 - bf * inner) with ((i - bf) * inner + k0)
        by nia.
      apply (lookup_tab (λ r, pad_data s pads (block (prod s) r buf))
               d inner (i - bf) k0); [done|lia|done]. }
    simpl in Hmid. fold s' in Hmid. fold inner in Hmid. rewrite Hmid.
    destruct (IH pads (block (prod s) (i - bf) buf) idx k0) as [Hin Hout];
      [lia|apply (length_block_lt _ d); [done|lia]|done|].
    split.
    + intros H3. inversion H3; subst.
      destruct Hin as (k' & Hk' & Hlook); [done|].
      exists ((i - bf) * prod s + k'). split.
      * rewrite ravel_index_cons. simpl. rewrite decide_True by lia.
        by rewrite Hk'.
      * rewrite Hlook. apply lookup_block. by eapply ravel_index_lt.
    + intros Hn. apply Hout. intros H3. apply Hn. constructor; [simpl; lia|done].
  - split.
    + intros H3. inversion H3; subst. simpl in *. lia.
    + intros _. rewrite lookup_app_r by (rewrite length_replicate; nia).
      rewrite length_replicate.
      rewrite lookup_app_r by (rewrite (length_tab _ d inner) by done; nia).
      rewrite (length_tab _ d inner) by done.
      apply lookup_replicate_2. nia.
Qed.

(** X23: padding with one pair (before, after) per axis returns an array
    whose extents are before + extent + after; at a position that lies,
    along every axis, at or after [before] and before [before + extent],
    it holds the element of the input at the position moved back by
    [before]; at every other position it holds 0. *)
Theorem pad_spec (X : ndarray Q) (pads : list (nat * nat)) :
  wf X → length pads = length (shape X) →
  ∃ Y, pad X pads = Some Y ∧
       shape Y = zip_with (λ e p, p.1 + e + p.2) (shape X) pads ∧
       wf Y ∧
       ∀ idx, is_Some (ravel_index (shape Y) idx) →
         (Forall3 (λ d p i, p.1 ≤ i < p.1 + d) (shape X) pads idx →
            is_Some (getitem X (zip_with (λ i p, i - p.1) idx pads)) ∧
            getitem Y idx = getitem X (zip_with (λ i p, i - p.1) idx pads)) ∧
         (¬ Forall3 (λ d p i, p.1 ≤ i < p.1 + d) (shape X) pads idx →
            getitem Y idx = Some 0%Q).
Proof.
  intros Hwf Hp. unfold pad. rewrite decide_True by done.
  eexists. split; [done|]. split; [done|]. split.
  { unfold wf, size. simpl. by apply length_pad_data. }
  intros idx [k Hk]. simpl in Hk.
  destruct (pad_data_lookup (shape X) pads (data X) idx k Hp Hwf Hk)
    as [Hin Hout].
  unfold getitem at 2 4. simpl. rewrite Hk. simpl. split.
  - intros H3. destruct (Hin H3) as (k' & Hk' & Hlook).
    split.
    + apply getitem_is_Some; [done|]. by rewrite Hk'.
    + unfold getitem. by rewrite Hk'.
  - done.
Qed.

Lemma pad_spec_witness :
  wf X1441 ∧ length [(0, 0); (1, 0); (1, 0); (0, 0)] = length (shape X1441) ∧
  ∃ Y, pad X1441 [(0, 0); (1, 0); (1, 0); (0, 0)] = Some Y ∧
       shape Y = [1; 5; 5; 1] ∧ wf Y.
Proof.
  split; [reflexivity|]. split; [reflexivity|].
  destruct (pad_spec X1441 [(0, 0); (1, 0); (1, 0); (0, 0)])
    as (Y & H1 & H2 & H3 & _); [reflexivity|reflexivity|].
  exists Y. exact (conj H1 (conj H2 H3)).
Defined.

(** The calls of the notebook on the image 0..15: a 3 x 3 window moved by
    3, and windows over the padded image. *)
Example max_pool_3x3_stride_3 :
  max_pool X1441 (3, 3) (3, 3) = Some (NDArray [1; 1; 1; 1] [10%Q]).
Proof. vm_compute. reflexivity. Qed.

Example max_pool_padded_stride_2 :
  (pad X1441 [(0, 0); (1, 0); (1, 0); (0, 0)] ≫= λ P,
     max_pool P (3, 3) (2, 2)) =
  Some (NDArray [1; 2; 2; 1] [5%Q; 7%Q; 13%Q; 15%Q]).
Proof. vm_compute. reflexivity. Qed.

Example max_pool_padded_2x3 :
  (pad X1441 [(0, 0); (0, 0); (1, 1); (0, 0)] ≫= λ P,
     max_pool P (2, 3) (2, 3)) =
  Some (NDArray [1; 2; 2; 1] [5%Q; 7%Q; 13%Q; 15%Q]).
Proof. vm_compute. reflexivity. Qed.
